(** * The client-side conversation cache of the admin conversations page

    A shallow embedding of the caching utilities at the top of the admin
    conversations script (lines 14-450): the cache-key normaliser, the lazily
    opened IndexedDB handle, lookup, deletion, store with its localStorage
    fallback, and the clean-up of old entries.

    The browser is the environment of that code.  It is modelled by a
    [World]: the IndexedDB object store, localStorage, the cached handle,
    scripts of injected faults (a failing open, a failing request, a quota
    error) and the trace of the platform calls made so far.  [JSON.stringify],
    [JSON.parse] and the length of a serialised string are taken from a
    [Platform]; every theorem holds for every platform.

    The log lines of the code change what a call does in one way only: six
    of them render a time of a record as a Date (lines 129, 144, 174, 187,
    251 and 295), which throws a RangeError for a number that is no time
    value.  That is modelled; the text that is logged is not. *)

From Stdlib Require Import ZArith NArith List Bool Lia String Ascii.
From Stdlib Require Import DecimalString Permutation Sorted.
Import ListNotations.

Set Warnings "-register-all".

(** ** JavaScript strings *)

(** A string is its sequence of UTF-16 code units. *)
Definition jsstring := list N.

(** A literal, for strings of 8-bit characters. *)
Definition js (s : string) : jsstring :=
  map N_of_ascii (list_ascii_of_string s).

Fixpoint str_eqb (a b : jsstring) : bool :=
  match a, b with
  | [], [] => true
  | x :: a', y :: b' => N.eqb x y && str_eqb a' b'
  | _, _ => false
  end.

(** [a <= b] in the order of IndexedDB keys: code unit by code unit. *)
Fixpoint str_leb (a b : jsstring) : bool :=
  match a, b with
  | [], _ => true
  | _ :: _, [] => false
  | x :: a', y :: b' => N.ltb x y || (N.eqb x y && str_leb a' b')
  end.

(** [s.startsWith(p)] *)
Fixpoint startsWith (p s : jsstring) : bool :=
  match p, s with
  | [], _ => true
  | _ :: _, [] => false
  | x :: p', y :: s' => N.eqb x y && startsWith p' s'
  end.

(** ECMAScript's WhiteSpace and LineTerminator code points, the ones
    [String.prototype.trim] strips. *)
Definition is_ws (c : N) : bool :=
  ((9 <=? c) && (c <=? 13) || (c =? 32) || (c =? 160) || (c =? 5760)
   || ((8192 <=? c) && (c <=? 8202)) || (c =? 8232) || (c =? 8233)
   || (c =? 8239) || (c =? 8287) || (c =? 12288) || (c =? 65279))%N.

Fixpoint trimStart (s : jsstring) : jsstring :=
  match s with
  | [] => []
  | c :: r => if is_ws c then trimStart r else s
  end.

Fixpoint trimEnd (s : jsstring) : jsstring :=
  match s with
  | [] => []
  | c :: r =>
      match trimEnd r with
      | [] => if is_ws c then [] else [c]
      | r' => c :: r'
      end
  end.

(** [s.trim()] *)
Definition trim (s : jsstring) : jsstring := trimEnd (trimStart s).

(** The code unit of the letter T, the date-time separator. *)
Definition char_T : N := 84.

(** [s.includes('T')] *)
Definition includes_T (s : jsstring) : bool := existsb (N.eqb char_T) s.

(** [s.split('T')[0]]: what stands before the first T. *)
Fixpoint split_T_0 (s : jsstring) : jsstring :=
  match s with
  | [] => []
  | c :: r => if N.eqb c char_T then [] else c :: split_T_0 r
  end.

(** ** JavaScript values *)

(** The values the cache is handed: identifiers, dates and payloads.  Numbers
    are the integers; a [Date] is given by its two renderings,
    [toISOString()] and [toString()]. *)
Inductive JsVal : Type :=
| JUndefined
| JNull
| JBool (b : bool)
| JNum (z : Z)
| JStr (s : jsstring)
| JArr (items : list JsVal)
| JObj (fields : list (jsstring * JsVal))
| JDate (iso str : jsstring).

(** ToBoolean: what [!v] and [v || w] test. *)
Definition truthy (v : JsVal) : bool :=
  match v with
  | JUndefined | JNull => false
  | JBool b => b
  | JNum z => negb (z =? 0)%Z
  | JStr s => match s with [] => false | _ => true end
  | JArr _ | JObj _ | JDate _ _ => true
  end.

(** [a || b] *)
Definition js_or (a b : JsVal) : JsVal := if truthy a then a else b.

Definition decimal (z : Z) : jsstring := js (NilZero.string_of_int (Z.to_int z)).

(** [String(v)] *)
Fixpoint js_String (v : JsVal) : jsstring :=
  match v with
  | JUndefined => js "undefined"
  | JNull => js "null"
  | JBool true => js "true"
  | JBool false => js "false"
  | JNum z => decimal z
  | JStr s => s
  | JArr items =>
      (fix join (l : list JsVal) : jsstring :=
         match l with
         | [] => []
         | x :: r =>
             let e := match x with
                      | JUndefined | JNull => []
                      | _ => js_String x
                      end in
             match r with
             | [] => e
             | _ :: _ => e ++ js "," ++ join r
             end
         end) items
  | JObj _ => js "[object Object]"
  | JDate _ str => str
  end.

Fixpoint assoc (name : jsstring) (fields : list (jsstring * JsVal)) : JsVal :=
  match fields with
  | [] => JUndefined
  | (k, v) :: rest => if str_eqb k name then v else assoc name rest
  end.

(** [v.name] for a [v] that is neither [undefined] nor [null]. *)
Definition js_get (v : JsVal) (name : jsstring) : JsVal :=
  match v with
  | JObj fields => assoc name fields
  | JArr items =>
      if str_eqb name (js "length") then JNum (Z.of_nat (List.length items))
      else JUndefined
  | JStr s =>
      if str_eqb name (js "length") then JNum (Z.of_nat (List.length s))
      else JUndefined
  | _ => JUndefined
  end.

(** [v?.name] *)
Definition js_get_opt (v : JsVal) (name : jsstring) : JsVal :=
  match v with
  | JUndefined | JNull => JUndefined
  | _ => js_get v name
  end.

(** ** The cache key (lines 14-40) *)

Definition CONVERSATION_CACHE_PREFIX : jsstring := js "admin_conversations_cache_".
Definition LEGACY_CACHE_PREFIX : jsstring := js "conversations_cache_".
Definition CACHE_EXPIRY_HOURS : Z := 24.

(** [const normalizedAdminId = String(adminId || '').trim()] *)
Definition normalizedAdminId (adminId : JsVal) : jsstring :=
  trim (js_String (js_or adminId (JStr []))).

(** [let normalizedDate = ''; if (date) { ... }] *)
Definition normalizedDate (date : JsVal) : jsstring :=
  if truthy date then
    match date with
    | JStr s =>
        let d := trim s in
        if includes_T d then split_T_0 d else d
    | JDate iso _ => split_T_0 iso
    | _ => []
    end
  else [].

Definition getConversationCacheKey (adminId date : JsVal) : jsstring :=
  normalizedAdminId adminId ++ js "_" ++ normalizedDate date.

(** The date shapes the cache is documented to accept. *)
Definition is_digit (c : N) : bool := ((48 <=? c) && (c <=? 57))%N.
Definition char_dash : N := 45.

(** [YYYY-MM-DD] *)
Definition is_ymd (s : jsstring) : bool :=
  match s with
  | [y1; y2; y3; y4; d1; m1; m2; d2; a1; a2] =>
      forallb is_digit [y1; y2; y3; y4; m1; m2; a1; a2]
      && N.eqb d1 char_dash && N.eqb d2 char_dash
  | _ => false
  end.

(** [YYYY-MM-DD], then the separator T, then anything. *)
Definition is_timestamped (s : jsstring) : bool :=
  is_ymd (firstn 10 s)
  && match nth_error s 10 with Some c => N.eqb c char_T | None => false end.

Definition valid_date (date : JsVal) : bool :=
  match date with
  | JStr s => is_ymd s || is_timestamped s
  | JDate iso _ => is_timestamped iso
  | _ => false
  end.

Example key_of_timestamp :
  getConversationCacheKey (JStr (js " 42 ")) (JStr (js "2024-03-05T10:00:00Z"))
  = js "42_2024-03-05".
Proof. reflexivity. Qed.

(** ** Stored records *)

(** The object [cacheData] built by [cacheConversations] (lines 230-238),
    which is also the shape of what the two tiers hold.  A record persisted
    by hand without a payload has [data = JUndefined]; one without an expiry
    has [expiresAt = 0].  The two times are numbers, of any size; a record
    persisted without a [timestamp] is not among these records. *)
Record CacheRecord : Type := mkCacheRecord {
  cacheKey : jsstring;
  adminId : jsstring;
  date : jsstring;
  data : JsVal;
  timestamp : Z;
  expiresAt : Z;
  conversationCount : JsVal
}.

(** What [JSON.parse] makes of a localStorage value: a SyntaxError, the
    value [null], or an object read through the fields of a record. *)
Inductive Parsed : Type :=
| ParseError
| ParsedNull
| ParsedRecord (r : CacheRecord).

(** The serialiser of the browser.  [Text] is the type of the strings that
    [JSON.stringify] produces and localStorage holds; the code observes such
    a string through its [length] and through [JSON.parse] only. *)
Class Platform : Type := {
  Text : Type;
  text_length : Text -> Z;
  JSON_stringify : CacheRecord -> Text;
  JSON_parse : Text -> Parsed
}.

(** ** The browser *)

(** An IndexedDB request ends in [onsuccess] or in [onerror]. *)
Inductive IdbResult (A : Type) : Type :=
| OnSuccess (a : A)
| OnError.
Arguments OnSuccess {A} a.
Arguments OnError {A}.

Inductive IdbFault : Type := IdbFine | IdbRequestError.

(** [localStorage.setItem] returns, throws QuotaExceededError, or throws
    something else. *)
Inductive LsFault : Type := LsFine | LsQuotaExceeded | LsOtherError.

(** The largest time value of a [Date], in milliseconds from the epoch. *)
Definition MAX_TIME_VALUE : Z := 8640000000000000.

(** [new Date(t).toISOString()] returns a string when [t] is a time value,
    and throws a RangeError when it is not: [new Date(t)] is then an
    invalid Date. *)
Definition is_time_value (t : Z) : bool := (Z.abs t <=? MAX_TIME_VALUE)%Z.

(** What becomes of the promise a call returns: it is resolved with a
    value, or it stays pending for ever.  The promise of lines 111-152 is
    resolved by the success handler of the request; when that handler
    throws before it calls [resolve], nothing resolves the promise. *)
Inductive Settled (A : Type) : Type :=
| Resolved (value : A)
| Pending.

Arguments Resolved {A} value.
Arguments Pending {A}.

Section Model.
Context {PF : Platform}.

(** The calls made to the two storage tiers. *)
Inductive Event : Type :=
| IdbOpen
| IdbGet (k : jsstring)
| IdbPut (k : jsstring)
| IdbDelete (k : jsstring)
| IdbOpenCursor
| LsGetItem (k : jsstring)
| LsSetItem (k : jsstring) (v : Text)
| LsRemoveItem (k : jsstring)
| LsKeys.

Record World : Type := mkWorld {
  (** [typeof indexedDB !== 'undefined'], fixed for the session (line 21) *)
  INDEXEDDB_AVAILABLE : bool;
  (** [let dbInstance = null] (line 83): [true] once it holds the handle *)
  dbInstance : bool;
  (** the object store 'conversations', one record per [cacheKey] *)
  idb : list CacheRecord;
  (** localStorage, in the order of [localStorage.key(i)] *)
  localStorage : list (jsstring * Text);
  (** how the next calls of [indexedDB.open] end ([true]: onsuccess);
      when the script is used up, they succeed *)
  open_script : list bool;
  (** how the next get, put and openCursor requests end *)
  idb_script : list IdbFault;
  (** how the next calls of [localStorage.setItem] end *)
  ls_script : list LsFault;
  (** the calls made so far, oldest first *)
  trace : list Event
}.

Definition set_dbInstance (b : bool) (w : World) : World :=
  mkWorld (INDEXEDDB_AVAILABLE w) b (idb w) (localStorage w)
          (open_script w) (idb_script w) (ls_script w) (trace w).
Definition set_idb (l : list CacheRecord) (w : World) : World :=
  mkWorld (INDEXEDDB_AVAILABLE w) (dbInstance w) l (localStorage w)
          (open_script w) (idb_script w) (ls_script w) (trace w).
Definition set_localStorage (l : list (jsstring * Text)) (w : World) : World :=
  mkWorld (INDEXEDDB_AVAILABLE w) (dbInstance w) (idb w) l
          (open_script w) (idb_script w) (ls_script w) (trace w).
Definition set_open_script (l : list bool) (w : World) : World :=
  mkWorld (INDEXEDDB_AVAILABLE w) (dbInstance w) (idb w) (localStorage w)
          l (idb_script w) (ls_script w) (trace w).
Definition set_idb_script (l : list IdbFault) (w : World) : World :=
  mkWorld (INDEXEDDB_AVAILABLE w) (dbInstance w) (idb w) (localStorage w)
          (open_script w) l (ls_script w) (trace w).
Definition set_ls_script (l : list LsFault) (w : World) : World :=
  mkWorld (INDEXEDDB_AVAILABLE w) (dbInstance w) (idb w) (localStorage w)
          (open_script w) (idb_script w) l (trace w).
Definition set_trace (l : list Event) (w : World) : World :=
  mkWorld (INDEXEDDB_AVAILABLE w) (dbInstance w) (idb w) (localStorage w)
          (open_script w) (idb_script w) (ls_script w) l.

(** *** Computations that act on the browser *)

Definition M (A : Type) : Type := World -> A * World.
Definition ret {A : Type} (a : A) : M A := fun w => (a, w).
Definition bind {A B : Type} (m : M A) (k : A -> M B) : M B :=
  fun w => let (a, w') := m w in k a w'.

Notation "x <- m ;; k" := (bind m (fun x => k))
  (at level 61, m at next level, right associativity).
Notation "m ;; k" := (bind m (fun _ => k))
  (at level 61, right associativity).

Definition emit (e : Event) : M unit :=
  fun w => (tt, set_trace (trace w ++ [e]) w).

(** [l.forEach(f)] *)
Fixpoint forEach {A : Type} (l : list A) (f : A -> M unit) : M unit :=
  match l with
  | [] => ret tt
  | x :: r => f x ;; forEach r f
  end.

Definition next_open : M bool :=
  fun w => match open_script w with
           | [] => (true, w)
           | b :: r => (b, set_open_script r w)
           end.
Definition next_idb_fault : M IdbFault :=
  fun w => match idb_script w with
           | [] => (IdbFine, w)
           | f :: r => (f, set_idb_script r w)
           end.
Definition next_ls_fault : M LsFault :=
  fun w => match ls_script w with
           | [] => (LsFine, w)
           | f :: r => (f, set_ls_script r w)
           end.

(** *** Sorting, as the index cursor and [Array.prototype.sort] do it *)

Section Sorting.
Context {A : Type}.
Variable before : A -> A -> bool.

(** [x] goes in front of the first element it may stand before, so that
    among equals the one met first stays first (the sort is stable). *)
Fixpoint insert_sorted (x : A) (l : list A) : list A :=
  match l with
  | [] => [x]
  | y :: r => if before x y then x :: l else y :: insert_sorted x r
  end.

Fixpoint sort_by (l : list A) : list A :=
  match l with
  | [] => []
  | x :: r => insert_sorted x (sort_by r)
  end.
End Sorting.

(** *** The object store *)

Definition has_key (k : jsstring) (r : CacheRecord) : bool := str_eqb (cacheKey r) k.

(** The order of the index 'timestamp' read backwards (direction 'prev'):
    larger timestamps first, and among equal timestamps larger keys first. *)
Definition newer_first (a b : CacheRecord) : bool :=
  (timestamp b <? timestamp a)%Z
  || ((timestamp b =? timestamp a)%Z && str_leb (cacheKey b) (cacheKey a)).

(** [indexedDB.open(INDEXEDDB_DB_NAME, INDEXEDDB_VERSION)] (lines 43-80) *)
Definition initConversationCacheDB : M bool :=
  emit IdbOpen ;; next_open.

(** [store.get(cacheKey)] *)
Definition idb_get (k : jsstring) : M (IdbResult (option CacheRecord)) :=
  emit (IdbGet k) ;;
  f <- next_idb_fault ;;
  match f with
  | IdbRequestError => ret OnError
  | IdbFine => fun w => (OnSuccess (find (has_key k) (idb w)), w)
  end.

(** [store.put(cacheData)]: the record replaces the one of its key. *)
Definition idb_put (r : CacheRecord) : M (IdbResult unit) :=
  emit (IdbPut (cacheKey r)) ;;
  f <- next_idb_fault ;;
  match f with
  | IdbRequestError => ret OnError
  | IdbFine =>
      fun w => (OnSuccess tt,
                set_idb (filter (fun x => negb (has_key (cacheKey r) x)) (idb w) ++ [r]) w)
  end.

(** A handler of a request throws: the transaction of the request is
    aborted, and the object store is again what it was, [before], when the
    transaction began. *)
Definition idb_abort (before : list CacheRecord) : M unit :=
  fun w => (tt, set_idb before w).

(** [store.delete(cacheKey)] *)
Definition idb_delete (k : jsstring) : M unit :=
  emit (IdbDelete k) ;;
  fun w => (tt, set_idb (filter (fun x => negb (has_key k x)) (idb w)) w).

(** [index.openCursor(null, 'prev')], run to its end (lines 333-342). *)
Definition idb_cursor_prev : M (IdbResult (list CacheRecord)) :=
  emit IdbOpenCursor ;;
  f <- next_idb_fault ;;
  match f with
  | IdbRequestError => ret OnError
  | IdbFine => fun w => (OnSuccess (sort_by newer_first (idb w)), w)
  end.

(** *** localStorage *)

Fixpoint ls_find (k : jsstring) (l : list (jsstring * Text)) : option Text :=
  match l with
  | [] => None
  | (k', v) :: r => if str_eqb k' k then Some v else ls_find k r
  end.

Fixpoint ls_update (k : jsstring) (v : Text) (l : list (jsstring * Text))
  : list (jsstring * Text) :=
  match l with
  | [] => [(k, v)]
  | (k', v') :: r => if str_eqb k' k then (k, v) :: r else (k', v') :: ls_update k v r
  end.

Definition ls_remove (k : jsstring) (l : list (jsstring * Text)) :=
  filter (fun kv => negb (str_eqb (fst kv) k)) l.

(** [localStorage.getItem(k)] *)
Definition ls_getItem (k : jsstring) : M (option Text) :=
  emit (LsGetItem k) ;;
  fun w => (ls_find k (localStorage w), w).

(** [localStorage.setItem(k, v)]; the result says how the call ended. *)
Definition ls_setItem (k : jsstring) (v : Text) : M LsFault :=
  emit (LsSetItem k v) ;;
  f <- next_ls_fault ;;
  match f with
  | LsFine => fun w => (LsFine, set_localStorage (ls_update k v (localStorage w)) w)
  | _ => ret f
  end.

(** [localStorage.removeItem(k)] *)
Definition ls_removeItem (k : jsstring) : M unit :=
  emit (LsRemoveItem k) ;;
  fun w => (tt, set_localStorage (ls_remove k (localStorage w)) w).

(** The loop over [localStorage.length] and [localStorage.key(i)]. *)
Definition ls_keys : M (list jsstring) :=
  emit LsKeys ;;
  fun w => (map fst (localStorage w), w).

(** [!s] for a string. *)
Definition text_falsy (s : Text) : bool := (text_length s =? 0)%Z.

(** ** The cache (lines 82-450) *)

Definition gets {A : Type} (f : World -> A) : M A := fun w => (f w, w).

(** Lines 83-100.  The handle is kept once an open has succeeded; a failed
    open leaves [dbInstance] as it was. *)
Definition getConversationCacheDB : M bool :=
  available <- gets INDEXEDDB_AVAILABLE ;;
  if negb available then ret false
  else
    instance <- gets dbInstance ;;
    if instance then ret true
    else
      opened <- initConversationCacheDB ;;
      if opened then (fun w => (true, set_dbInstance true w))
      else ret false.

(** Lines 197-215. *)
Definition deleteCachedConversation (cacheKey : jsstring) : M unit :=
  db <- getConversationCacheDB ;;
  (if db then idb_delete cacheKey else ret tt) ;;
  ls_removeItem (CONVERSATION_CACHE_PREFIX ++ cacheKey).

(** [cachedData.expiresAt && now > cachedData.expiresAt] *)
Definition expired (cachedData : CacheRecord) (now : Z) : bool :=
  negb (expiresAt cachedData =? 0)%Z && (expiresAt cachedData <? now)%Z.

(** Lines 111-152: the lookup in the object store.  [now] is what
    [Date.now()] returns at line 125.  The log lines 129 and 144 render
    [expiresAt] and [timestamp] as a Date; for a value that is no time
    value the handler ends there with a RangeError, before the record is
    deleted and before the promise is resolved. *)
Definition getCachedFromIndexedDB (cacheKey : jsstring) (now : Z)
  : M (Settled (option JsVal)) :=
  request <- idb_get cacheKey ;;
  match request with
  | OnError => ret (Resolved None)
  | OnSuccess None => ret (Resolved None)
  | OnSuccess (Some cachedData) =>
      if expired cachedData now then
        if is_time_value (expiresAt cachedData) then
          deleteCachedConversation cacheKey ;; ret (Resolved None)
        else ret Pending
      else if negb (truthy (data cachedData)) then
        deleteCachedConversation cacheKey ;; ret (Resolved None)
      else if is_time_value (timestamp cachedData) then
        ret (Resolved (Some (data cachedData)))
      else ret Pending
  end.

(** Lines 160-193: the lookup in localStorage.  [now] is what [Date.now()]
    returns at line 170.  A value that does not parse, or parses to [null],
    ends in the catch clause, and so does the RangeError of the log lines
    174 and 187, thrown before the entry is removed and before the payload
    is returned: the catch clause returns [null]. *)
Definition getCachedFromLocalStorage (cacheKey : jsstring) (now : Z)
  : M (Settled (option JsVal)) :=
  let localStorageKey := CONVERSATION_CACHE_PREFIX ++ cacheKey in
  cachedData <- ls_getItem localStorageKey ;;
  match cachedData with
  | None => ret (Resolved None)
  | Some text =>
      if text_falsy text then ret (Resolved None)
      else
        match JSON_parse text with
        | ParseError => ret (Resolved None)
        | ParsedNull => ret (Resolved None)
        | ParsedRecord parsed =>
            if expired parsed now then
              if is_time_value (expiresAt parsed) then
                ls_removeItem localStorageKey ;; ret (Resolved None)
              else ret (Resolved None)
            else if negb (truthy (data parsed)) then
              ls_removeItem localStorageKey ;; ret (Resolved None)
            else if is_time_value (timestamp parsed) then
              ret (Resolved (Some (data parsed)))
            else ret (Resolved None)
        end
  end.

(** Lines 103-194.  [Resolved None] is the [null] the function returns for
    a miss. *)
Definition getCachedConversations (adminId date : JsVal) (now : Z)
  : M (Settled (option JsVal)) :=
  let cacheKey := getConversationCacheKey adminId date in
  db <- getConversationCacheDB ;;
  if db then getCachedFromIndexedDB cacheKey now
  else getCachedFromLocalStorage cacheKey now.

Definition MAX_INDEXEDDB_ENTRIES : nat := 50.
Definition MAX_INDEXEDDB_ENTRIES_WHEN_LARGE : nat := 30.
Definition MAX_INDEXEDDB_SIZE : Z := 500 * 1024 * 1024.
Definition MAX_LOCALSTORAGE_ENTRIES : nat := 5.
Definition MAX_LOCALSTORAGE_ENTRY_SIZE : Z := 2 * 1024 * 1024.

(** [entries.reduce((sum, entry) => sum + (JSON.stringify(entry).length || 0), 0)] *)
Definition totalSize (entries : list CacheRecord) : Z :=
  fold_left (fun sum entry => (sum + text_length (JSON_stringify entry))%Z) entries 0%Z.

(** Lines 343-386: what is done once the cursor has loaded all entries,
    newest first. *)
Definition removeOldIndexedDBEntries (entries : list CacheRecord) : M unit :=
  if Nat.eqb (List.length entries) 0 then ret tt
  else
    (if Nat.ltb MAX_INDEXEDDB_ENTRIES (List.length entries) then
       forEach (skipn MAX_INDEXEDDB_ENTRIES entries)
               (fun entry => idb_delete (cacheKey entry))
     else ret tt) ;;
    (if (MAX_INDEXEDDB_SIZE <? totalSize entries)%Z
        && Nat.ltb MAX_INDEXEDDB_ENTRIES_WHEN_LARGE (List.length entries) then
       forEach (skipn MAX_INDEXEDDB_ENTRIES_WHEN_LARGE entries)
               (fun entry => idb_delete (cacheKey entry))
     else ret tt).

(** Lines 329-394: the clean-up of the object store. *)
Definition clearOldIndexedDBEntries : M unit :=
  request <- idb_cursor_prev ;;
  match request with
  | OnError => ret tt
  | OnSuccess entries => removeOldIndexedDBEntries entries
  end.

(** [key && (key.startsWith(CONVERSATION_CACHE_PREFIX) ||
    key.startsWith('conversations_cache_'))] *)
Definition is_cache_key (key : jsstring) : bool :=
  startsWith CONVERSATION_CACHE_PREFIX key || startsWith LEGACY_CACHE_PREFIX key.

(** [parsed.timestamp || 0], and 0 from the catch clause. *)
Definition entry_timestamp (item : option Text) : Z :=
  match item with
  | Some text =>
      match JSON_parse text with
      | ParsedRecord parsed => timestamp parsed
      | _ => 0%Z
      end
  | None => 0%Z
  end.

(** [cacheKeys.map(key => ...)]: the key and the timestamp of each entry
    (its size and conversation count are only logged). *)
Fixpoint readEntries (cacheKeys : list jsstring) : M (list (jsstring * Z)) :=
  match cacheKeys with
  | [] => ret []
  | key :: rest =>
      item <- ls_getItem key ;;
      entries <- readEntries rest ;;
      ret ((key, entry_timestamp item) :: entries)
  end.

(** [(a, b) => b.timestamp - a.timestamp] is not positive. *)
Definition newest_first (a b : jsstring * Z) : bool := (snd b <=? snd a)%Z.

(** Lines 410-446: what is done with the keys found under the two
    prefixes. *)
Definition removeOldLocalStorageEntries (cacheKeys : list jsstring) : M unit :=
  if Nat.eqb (List.length cacheKeys) 0 then ret tt
  else
    entries <- readEntries cacheKeys ;;
    let cacheEntries := sort_by newest_first entries in
    if Nat.ltb MAX_LOCALSTORAGE_ENTRIES (List.length cacheEntries) then
      forEach (skipn MAX_LOCALSTORAGE_ENTRIES cacheEntries)
              (fun entry => ls_removeItem (fst entry))
    else ret tt.

(** Lines 401-449: the clean-up of localStorage. *)
Definition clearOldLocalStorageEntries : M unit :=
  keys <- ls_keys ;;
  removeOldLocalStorageEntries (filter is_cache_key keys).

(** Lines 323-450.  With a handle, the function returns from the IndexedDB
    branch. *)
Definition clearOldCacheEntries : M unit :=
  db <- getConversationCacheDB ;;
  if db then clearOldIndexedDBEntries
  else clearOldLocalStorageEntries.

(** [if (!verifyCache) return false; ... return true] *)
Definition verified (verifyCache : option Text) : bool :=
  match verifyCache with
  | Some text => negb (text_falsy text)
  | None => false
  end.

(** Lines 274-320.  After a write that is verified, the log line 295
    renders [expiresAt] as a Date.  For a value that is no time value this
    throws a RangeError, which the catch clause takes for an error other
    than the quota error: the function returns [false], and the entry stays
    written.  The log line after the second attempt renders no Date. *)
Definition cacheToLocalStorage (cacheKey : jsstring) (cacheData : CacheRecord) : M bool :=
  let localStorageKey := CONVERSATION_CACHE_PREFIX ++ cacheKey in
  let cacheString := JSON_stringify cacheData in
  if (MAX_LOCALSTORAGE_ENTRY_SIZE <? text_length cacheString)%Z then ret false
  else
    outcome <- ls_setItem localStorageKey cacheString ;;
    match outcome with
    | LsFine =>
        verifyCache <- ls_getItem localStorageKey ;;
        ret (verified verifyCache && is_time_value (expiresAt cacheData))
    | LsQuotaExceeded =>
        clearOldCacheEntries ;;
        retry <- ls_setItem localStorageKey (JSON_stringify cacheData) ;;
        match retry with
        | LsFine =>
            verifyCache <- ls_getItem localStorageKey ;;
            ret (verified verifyCache)
        | _ => ret false
        end
    | LsOtherError => ret false
    end.

(** [data.conversations?.length || 0] *)
Definition conversationCountOf (data : JsVal) : JsVal :=
  js_or (js_get_opt (js_get data (js "conversations")) (js "length")) (JNum 0).

(** Lines 225-238: the record to store.  [now1] is what [Date.now()]
    returns at line 228 and [now2] what it returns at line 235. *)
Definition buildCacheData (adminId date data : JsVal) (now1 now2 : Z) : CacheRecord :=
  let cacheKey := getConversationCacheKey adminId date in
  let expiresAt := (now1 + CACHE_EXPIRY_HOURS * 60 * 60 * 1000)%Z in
  mkCacheRecord cacheKey (js_String adminId) (js_String date) data
                now2 expiresAt (conversationCountOf data).

(** Lines 218-271.  The success handler of the put renders [expiresAt] as
    a Date for the log line 251 before it resolves the promise.  For a value
    that is no time value the handler throws: the promise is never resolved,
    and the transaction of the put is aborted. *)
Definition cacheConversations (adminId date data : JsVal) (now1 now2 : Z)
  : M (Settled bool) :=
  if negb (truthy adminId) || negb (truthy date) || negb (truthy data)
  then ret (Resolved false)
  else
    let cacheKey := getConversationCacheKey adminId date in
    let cacheData := buildCacheData adminId date data now1 now2 in
    db <- getConversationCacheDB ;;
    if db then
      before <- gets idb ;;
      request <- idb_put cacheData ;;
      match request with
      | OnSuccess _ =>
          if is_time_value (expiresAt cacheData) then ret (Resolved true)
          else idb_abort before ;; ret Pending
      | OnError =>
          result <- cacheToLocalStorage cacheKey cacheData ;;
          ret (Resolved result)
      end
    else
      result <- cacheToLocalStorage cacheKey cacheData ;;
      ret (Resolved result).

(** ** Sessions *)

(** The calls a page makes into the cache, with the clock readings each
    one takes. *)
Inductive Op : Type :=
| OpLookup (adminId date : JsVal) (now : Z)
| OpStore (adminId date data : JsVal) (now1 now2 : Z)
| OpDelete (cacheKey : jsstring)
| OpSweep.

Definition run_op (op : Op) (w : World) : World :=
  match op with
  | OpLookup adminId date now => snd (getCachedConversations adminId date now w)
  | OpStore adminId date data now1 now2 => snd (cacheConversations adminId date data now1 now2 w)
  | OpDelete cacheKey => snd (deleteCachedConversation cacheKey w)
  | OpSweep => snd (clearOldCacheEntries w)
  end.

Definition run_session (ops : list Op) (w : World) : World :=
  fold_left (fun w op => run_op op w) ops w.

End Model.

Notation "x <- m ;; k" := (bind m (fun x => k))
  (at level 61, m at next level, right associativity).
Notation "m ;; k" := (bind m (fun _ => k))
  (at level 61, right associativity).

(** The events of [w'] that are not yet in [w]. *)
Definition events_since {PF : Platform} (w w' : World) : list Event :=
  skipn (List.length (trace w)) (trace w').

Definition is_getItem {PF : Platform} (e : Event) : bool :=
  match e with LsGetItem _ => true | _ => false end.
(** The calls that reach IndexedDB. *)
Definition is_structured {PF : Platform} (e : Event) : bool :=
  match e with
  | IdbOpen | IdbGet _ | IdbPut _ | IdbDelete _ | IdbOpenCursor => true
  | _ => false
  end.
Definition is_open {PF : Platform} (e : Event) : bool :=
  match e with IdbOpen => true | _ => false end.

(** No fault is injected from this world on. *)
Definition fault_free {PF : Platform} (w : World) : Prop :=
  open_script w = [] /\ idb_script w = [] /\ ls_script w = [].

(** The payload has the list the page reads, [data.conversations]. *)
Definition has_list_field (payload : JsVal) : bool :=
  match payload with
  | JObj fields =>
      match assoc (js "conversations") fields with
      | JArr _ => true
      | _ => false
      end
  | _ => false
  end.

(** ** A platform to run examples on *)

(** A string is kept as what the code can observe of it: its length and
    what it parses to.  A serialised record is given 200 code units, and
    1024 more for each conversation it counts. *)
Record SampleText : Type := mkSampleText {
  sample_length : Z;
  sample_parsed : Parsed
}.

Definition sample_size (r : CacheRecord) : Z :=
  match conversationCount r with
  | JNum n => 200 + 1024 * n
  | _ => 200
  end.

Definition sample_platform : Platform := {|
  Text := SampleText;
  text_length := sample_length;
  JSON_stringify := fun r => mkSampleText (sample_size r) (ParsedRecord r);
  JSON_parse := sample_parsed
|}.

(** A payload with [n] conversations. *)
Definition payload_of (n : nat) : JsVal :=
  JObj [(js "conversations", JArr (repeat (JObj []) n)); (js "total", JNum (Z.of_nat n))].

(** A page that has just been loaded: both tiers are empty. *)
Definition fresh_world (available : bool) : @World sample_platform :=
  @mkWorld sample_platform available false [] [] [] [] [] [].

Definition admin42 : JsVal := JStr (js "42").
Definition march5 : JsVal := JStr (js "2024-03-05").
(** The Date of noon UTC on that day. *)
Definition march5_noon : JsVal :=
  JDate (js "2024-03-05T12:00:00.000Z") (js "Tue Mar 05 2024 12:00:00 GMT+0000").

(** *** Sample records and worlds *)

Definition key42 : jsstring := js "42_2024-03-05".

(** A record as a store made at time [t] leaves it. *)
Definition record_at (k : jsstring) (payload : JsVal) (t : Z) : CacheRecord :=
  mkCacheRecord k (js "42") (js "2024-03-05") payload t (t + 86400000)
                (conversationCountOf payload).

(** A record persisted by hand, with counters but without the list. *)
Definition record_without_list : CacheRecord :=
  record_at key42 (JObj [(js "total", JNum 3)]) 1000.

(** A record persisted by hand without a payload. *)
Definition record_without_payload : CacheRecord :=
  record_at key42 JUndefined 1000.

Definition text_of (r : CacheRecord) : @Text sample_platform :=
  @JSON_stringify sample_platform r.

(** The handle is held and the object store holds [records]. *)
Definition world_with_idb (records : list CacheRecord) : @World sample_platform :=
  @mkWorld sample_platform true true records [] [] [] [] [].

(** No IndexedDB, and localStorage holds [items]. *)
Definition world_with_ls (items : list (jsstring * @Text sample_platform)) : @World sample_platform :=
  @mkWorld sample_platform false false [] items [] [] [] [].

(** The handle is held, and the next request to the object store fails. *)
Definition world_put_fails : @World sample_platform :=
  @mkWorld sample_platform true true [] [] [] [IdbRequestError] [] [].

(** The handle is held, the object store is empty, and localStorage holds a
    fresh record under the key. *)
Definition world_only_flat_has_it : @World sample_platform :=
  @mkWorld sample_platform true true []
          [(CONVERSATION_CACHE_PREFIX ++ key42, text_of (record_at key42 (payload_of 2) 1000))]
          [] [] [] [].

(** The first open of the session fails. *)
Definition world_open_fails_once : @World sample_platform :=
  @mkWorld sample_platform true false [] [] [false] [] [] [].

(** The [i]-th of a series of records, written at time [1000 + i]. *)
Definition nth_record (count : Z) (i : nat) : CacheRecord :=
  mkCacheRecord (js "42_day" ++ decimal (Z.of_nat i)) (js "42") (js "day")
                (payload_of 1) (1000 + Z.of_nat i) (86401000 + Z.of_nat i) (JNum count).

(** [n] records that count [count] conversations each. *)
Definition records (n : nat) (count : Z) : list CacheRecord :=
  map (nth_record count) (seq 0 n).

(** localStorage entries for the first [n] records of the series. *)
Definition flat_items (n : nat) : list (jsstring * @Text sample_platform) :=
  map (fun r => (CONVERSATION_CACHE_PREFIX ++ cacheKey r, text_of r)) (records n 1).

(** Eight entries of the cache and one entry of another part of the page. *)
Definition world_flat_eight : @World sample_platform :=
  world_with_ls ((js "theme", mkSampleText 4 ParseError : @Text sample_platform) :: flat_items 8).



Fixpoint distinct (l : list jsstring) : bool :=
  match l with
  | [] => true
  | k :: r => negb (existsb (str_eqb k) r) && distinct r
  end.

(** * Properties *)

(** ** Strings and the cache key *)

Lemma str_eqb_refl (s : jsstring) : str_eqb s s = true.
Proof.
  induction s as [|c s IH]; simpl; [reflexivity|].
  now rewrite N.eqb_refl, IH.
Qed.

Lemma str_eqb_eq (a b : jsstring) : str_eqb a b = true <-> a = b.
Proof.
  split; [|intros ->; apply str_eqb_refl].
  revert b; induction a as [|x a IH]; intros [|y b]; simpl; try discriminate; auto.
  intros H; apply andb_true_iff in H as [Hx Hr].
  apply N.eqb_eq in Hx; subst; f_equal; auto.
Qed.

Lemma str_eqb_neq (a b : jsstring) : str_eqb a b = false <-> a <> b.
Proof.
  split.
  - intros H E; apply str_eqb_eq in E; congruence.
  - intros H; destruct (str_eqb a b) eqn:E; [apply str_eqb_eq in E; contradiction|reflexivity].
Qed.

Lemma trimEnd_cons_nonws (c : N) (r : jsstring) :
  is_ws c = false -> trimEnd (c :: r) = c :: trimEnd r.
Proof. intros H; simpl; rewrite H; now destruct (trimEnd r). Qed.

Lemma trimEnd_cons_nonempty (c : N) (r : jsstring) :
  trimEnd r <> [] -> trimEnd (c :: r) = c :: trimEnd r.
Proof. intros H; simpl; destruct (trimEnd r); [contradiction|reflexivity]. Qed.

Lemma trimEnd_idem (s : jsstring) : trimEnd (trimEnd s) = trimEnd s.
Proof.
  induction s as [|c s IH]; [reflexivity|].
  simpl; destruct (trimEnd s) as [|d t] eqn:E.
  - destruct (is_ws c) eqn:W; [reflexivity|].
    simpl; now rewrite W.
  - rewrite trimEnd_cons_nonempty; [now rewrite IH|].
    rewrite IH; discriminate.
Qed.

(** A string that does not start with white space. *)
Definition no_leading_ws (s : jsstring) : Prop :=
  match s with [] => True | c :: _ => is_ws c = false end.

Lemma trimStart_no_leading (s : jsstring) : no_leading_ws (trimStart s).
Proof.
  induction s as [|c s IH]; simpl; [exact I|].
  destruct (is_ws c) eqn:W; [exact IH|exact W].
Qed.

Lemma trimStart_fixed (s : jsstring) : no_leading_ws s -> trimStart s = s.
Proof. destruct s as [|c s]; simpl; [reflexivity|]; now intros ->. Qed.

Lemma trimEnd_no_leading (s : jsstring) : no_leading_ws s -> no_leading_ws (trimEnd s).
Proof.
  destruct s as [|c s]; [exact (fun H => H)|].
  intros W; simpl in W; rewrite (trimEnd_cons_nonws _ _ W); exact W.
Qed.

Lemma trim_idem (s : jsstring) : trim (trim s) = trim s.
Proof.
  unfold trim.
  rewrite (trimStart_fixed _ (trimEnd_no_leading _ (trimStart_no_leading s))).
  apply trimEnd_idem.
Qed.

(** A code unit that is neither white space nor the separator T. *)
Definition clean (c : N) : bool := negb (is_ws c) && negb (N.eqb c char_T).

Ltac n_cases :=
  repeat match goal with
         | |- context [N.leb ?a ?b] => destruct (N.leb_spec a b)
         | |- context [N.eqb ?a ?b] => destruct (N.eqb_spec a b)
         end; simpl; try reflexivity; try lia; try discriminate.

Lemma is_digit_clean (c : N) : is_digit c = true -> clean c = true.
Proof.
  unfold is_digit, clean, is_ws, char_T; intros H.
  apply andb_true_iff in H as [H1 H2].
  apply N.leb_le in H1; apply N.leb_le in H2.
  n_cases.
Qed.

Lemma dash_clean (c : N) : N.eqb c char_dash = true -> clean c = true.
Proof. intros H; apply N.eqb_eq in H; subst; reflexivity. Qed.

Lemma is_ymd_clean (y : jsstring) :
  is_ymd y = true -> forallb clean y = true /\ y <> [].
Proof.
  unfold is_ymd.
  do 10 (destruct y as [|? y]; try discriminate).
  destruct y; try discriminate.
  intros H; split; [|discriminate].
  apply andb_true_iff in H as [H Hd2].
  apply andb_true_iff in H as [H Hd1].
  cbn [forallb] in H.
  repeat match type of H with
         | andb (is_digit _) _ = true =>
             apply andb_true_iff in H; destruct H as [? H]
         end.
  cbn [forallb].
  repeat match goal with
         | Hx : is_digit ?c = true |- context [clean ?c] =>
             rewrite (is_digit_clean c Hx)
         | Hx : N.eqb ?c char_dash = true |- context [clean ?c] =>
             rewrite (dash_clean c Hx)
         end.
  reflexivity.
Qed.

Lemma clean_nonws (c : N) : clean c = true -> is_ws c = false.
Proof.
  unfold clean; intros H; apply andb_true_iff in H as [H _].
  now apply negb_true_iff in H.
Qed.

Lemma clean_not_T (c : N) : clean c = true -> N.eqb c char_T = false.
Proof.
  unfold clean; intros H; apply andb_true_iff in H as [_ H].
  now apply negb_true_iff in H.
Qed.

Lemma trimStart_clean_app (y r : jsstring) :
  forallb clean y = true -> y <> [] -> trimStart (y ++ r) = y ++ r.
Proof.
  destruct y as [|c y]; [contradiction|]; simpl; intros H _.
  apply andb_true_iff in H as [H _]; now rewrite (clean_nonws _ H).
Qed.

Lemma trimEnd_clean_app (y : jsstring) (c : N) (r : jsstring) :
  forallb clean y = true -> is_ws c = false ->
  trimEnd (y ++ c :: r) = y ++ c :: trimEnd r.
Proof.
  intros Hy Hc; induction y as [|d y IH]; simpl app.
  - now apply trimEnd_cons_nonws.
  - simpl in Hy; apply andb_true_iff in Hy as [Hd Hy].
    rewrite (trimEnd_cons_nonws _ _ (clean_nonws _ Hd)), IH; auto.
Qed.

Lemma trimEnd_clean (y : jsstring) : forallb clean y = true -> trimEnd y = y.
Proof.
  induction y as [|d y IH]; [reflexivity|]; simpl forallb; intros Hy.
  apply andb_true_iff in Hy as [Hd Hy].
  rewrite (trimEnd_cons_nonws _ _ (clean_nonws _ Hd)), IH; auto.
Qed.

Lemma trim_clean (y : jsstring) : forallb clean y = true -> trim y = y.
Proof.
  intros Hc; unfold trim.
  rewrite trimStart_fixed; [now apply trimEnd_clean|].
  destruct y as [|c y]; [exact I|]; simpl in *.
  apply andb_true_iff in Hc as [Hc _]; now apply clean_nonws.
Qed.

Lemma includes_T_clean (y : jsstring) : forallb clean y = true -> includes_T y = false.
Proof.
  unfold includes_T.
  induction y as [|d y IH]; [reflexivity|]; cbn [existsb forallb]; intros Hy.
  apply andb_true_iff in Hy as [Hd Hy].
  rewrite (IH Hy), orb_false_r.
  rewrite N.eqb_sym; now apply clean_not_T.
Qed.

Lemma includes_T_app (y r : jsstring) : includes_T (y ++ char_T :: r) = true.
Proof.
  unfold includes_T; rewrite existsb_app; cbn [existsb].
  now rewrite N.eqb_refl, orb_true_r.
Qed.

Lemma split_T_0_clean_app (y r : jsstring) :
  forallb clean y = true -> split_T_0 (y ++ char_T :: r) = y.
Proof.
  induction y as [|d y IH]; cbn [app split_T_0 forallb]; intros Hy.
  - now rewrite N.eqb_refl.
  - apply andb_true_iff in Hy as [Hd Hy].
    rewrite (clean_not_T _ Hd), IH; auto.
Qed.

Lemma nth_error_split_at (s : jsstring) (n : nat) (c : N) :
  nth_error s n = Some c -> s = firstn n s ++ c :: skipn (S n) s.
Proof.
  revert s; induction n as [|n IH]; intros [|d s]; simpl; try discriminate.
  - now intros [= ->].
  - intros H; f_equal; now apply IH.
Qed.

Lemma is_timestamped_split (s : jsstring) :
  is_timestamped s = true ->
  exists y r, s = y ++ char_T :: r /\ is_ymd y = true.
Proof.
  unfold is_timestamped; intros H; apply andb_true_iff in H as [Hy Hn].
  destruct (nth_error s 10) as [c|] eqn:E; [|discriminate].
  apply N.eqb_eq in Hn; subst c.
  exists (firstn 10 s), (skipn 11 s); split; [|exact Hy].
  now apply nth_error_split_at.
Qed.

Lemma truthy_JStr_app (y r : jsstring) : y <> [] -> truthy (JStr (y ++ r)) = true.
Proof. destruct y; [contradiction|reflexivity]. Qed.

(** On an accepted date the normaliser returns the calendar day. *)
Lemma normalizedDate_valid (date : JsVal) :
  valid_date date = true ->
  is_ymd (normalizedDate date) = true.
Proof.
  unfold valid_date, normalizedDate; destruct date; try discriminate.
  - intros H; apply orb_true_iff in H as [H|H].
    + destruct (is_ymd_clean _ H) as [Hc Hn].
      replace (truthy (JStr s)) with true by (destruct s; [contradiction|reflexivity]).
      cbv zeta; now rewrite (trim_clean _ Hc), (includes_T_clean _ Hc).
    + destruct (is_timestamped_split _ H) as (y & r & -> & Hy).
      destruct (is_ymd_clean _ Hy) as [Hc Hn].
      rewrite truthy_JStr_app by exact Hn.
      unfold trim; rewrite trimStart_clean_app by assumption.
      rewrite trimEnd_clean_app by (assumption || reflexivity).
      now rewrite includes_T_app, split_T_0_clean_app.
  - intros H; destruct (is_timestamped_split _ H) as (y & r & -> & Hy).
    destruct (is_ymd_clean _ Hy) as [Hc Hn].
    simpl truthy; cbv iota; now rewrite split_T_0_clean_app.
Qed.

Lemma normalizedDate_ymd (y : jsstring) :
  is_ymd y = true -> normalizedDate (JStr y) = y.
Proof.
  intros H; destruct (is_ymd_clean _ H) as [Hc Hn].
  unfold normalizedDate.
  replace (truthy (JStr y)) with true by (destruct y; [contradiction|reflexivity]).
  cbv zeta; now rewrite (trim_clean _ Hc), (includes_T_clean _ Hc).
Qed.

Lemma normalizedAdminId_idem (adminId : JsVal) :
  normalizedAdminId (JStr (normalizedAdminId adminId)) = normalizedAdminId adminId.
Proof.
  unfold normalizedAdminId at 1.
  set (t := normalizedAdminId adminId).
  assert (E : js_String (js_or (JStr t) (JStr [])) = t)
    by (unfold js_or; simpl; destruct t; reflexivity).
  rewrite E; unfold t, normalizedAdminId; apply trim_idem.
Qed.

(** Outside the accepted shapes the date normaliser is not idempotent:
    white space left in front of the separator survives the first pass. *)
Example normalizedDate_not_idempotent :
  normalizedDate (JStr (js "2024-03-05 T10:00")) = js "2024-03-05 "
  /\ normalizedDate (JStr (js "2024-03-05 ")) = js "2024-03-05".
Proof. split; reflexivity. Qed.

(** C10.  The key of an identifier and an accepted date (a calendar day, a
    time stamp, or a Date) is a function of the two, and it is reproduced
    when the normalised identifier and the normalised date are normalised
    again; the time stamp 2024-03-05T10:00:00Z and the day 2024-03-05 give
    the same key for every identifier. *)
Theorem C10_key_normalization (adminId date : JsVal) :
  valid_date date = true ->
  getConversationCacheKey (JStr (normalizedAdminId adminId)) (JStr (normalizedDate date))
  = getConversationCacheKey adminId date
  /\ getConversationCacheKey adminId (JStr (js "2024-03-05T10:00:00Z"))
     = getConversationCacheKey adminId (JStr (js "2024-03-05")).
Proof.
  intros Hv; split; [|reflexivity].
  unfold getConversationCacheKey.
  rewrite normalizedAdminId_idem.
  now rewrite (normalizedDate_ymd _ (normalizedDate_valid _ Hv)).
Qed.

Lemma C10_witness :
  valid_date march5_noon = true
  /\ (getConversationCacheKey (JStr (normalizedAdminId (JNum 42)))
                              (JStr (normalizedDate march5_noon))
      = getConversationCacheKey (JNum 42) march5_noon
      /\ getConversationCacheKey (JNum 42) (JStr (js "2024-03-05T10:00:00Z"))
         = getConversationCacheKey (JNum 42) (JStr (js "2024-03-05"))).
Proof.
  split; [reflexivity|].
  exact (C10_key_normalization (JNum 42) march5_noon eq_refl).
Defined.

(** ** Reasoning about calls *)

Section Theory.
Context {PF : Platform}.

Opaque CONVERSATION_CACHE_PREFIX LEGACY_CACHE_PREFIX.

Lemma bind_run {A B : Type} (m : M A) (k : A -> M B) (w : World) :
  bind m k w = k (fst (m w)) (snd (m w)).
Proof. unfold bind; now destruct (m w). Qed.

(** [w'] is [w] after calls that [allowed] accepts. *)
Definition extends (allowed : Event -> bool) (w w' : World) : Prop :=
  exists evs, trace w' = trace w ++ evs /\ forallb allowed evs = true.

(** The platform stays what it is, and a handle once held is kept. *)
Definition steady (w w' : World) : Prop :=
  INDEXEDDB_AVAILABLE w' = INDEXEDDB_AVAILABLE w
  /\ (dbInstance w = true -> dbInstance w' = true).

(** A condition on the session that no call can undo. *)
Definition lasting (P : World -> Prop) : Prop :=
  forall w w', steady w w' -> P w -> P w'.

(** From a world in [P], [m] keeps the session steady, makes only calls
    that [allowed] accepts, and returns a result in [R]. *)
Definition spec {A : Type} (P : World -> Prop) (allowed : Event -> bool)
           (m : M A) (R : A -> Prop) : Prop :=
  forall w, P w ->
    steady w (snd (m w)) /\ extends allowed w (snd (m w)) /\ R (fst (m w)).

Definition any {A : Type} : A -> Prop := fun _ => True.

Lemma extends_refl (allowed : Event -> bool) (w : World) : extends allowed w w.
Proof. exists []; now rewrite app_nil_r. Qed.

Lemma extends_trans (allowed : Event -> bool) (w1 w2 w3 : World) :
  extends allowed w1 w2 -> extends allowed w2 w3 -> extends allowed w1 w3.
Proof.
  intros (e1 & H1 & A1) (e2 & H2 & A2); exists (e1 ++ e2); split.
  - now rewrite H2, H1, app_assoc.
  - now rewrite forallb_app, A1, A2.
Qed.

Lemma steady_refl (w : World) : steady w w.
Proof. split; auto. Qed.

Lemma steady_trans (w1 w2 w3 : World) : steady w1 w2 -> steady w2 w3 -> steady w1 w3.
Proof. intros [A1 D1] [A2 D2]; split; [congruence|auto]. Qed.

Lemma spec_ret {A : Type} P allowed (a : A) (R : A -> Prop) :
  R a -> spec P allowed (ret a) R.
Proof. intros H w _; simpl; auto using steady_refl, extends_refl. Qed.

Lemma spec_bind {A B : Type} P allowed (m : M A) (k : A -> M B) (R : A -> Prop) (R' : B -> Prop) :
  lasting P ->
  spec P allowed m R ->
  (forall a, R a -> spec P allowed (k a) R') ->
  spec P allowed (bind m k) R'.
Proof.
  intros HP Hm Hk w Hw; rewrite bind_run.
  destruct (Hm w Hw) as (S1 & E1 & R1).
  destruct (Hk _ R1 (snd (m w)) (HP _ _ S1 Hw)) as (S2 & E2 & R2).
  eauto using steady_trans, extends_trans.
Qed.

Lemma spec_weaken {A : Type} P allowed (m : M A) (R R' : A -> Prop) :
  (forall a, R a -> R' a) -> spec P allowed m R -> spec P allowed m R'.
Proof. intros H Hm w Hw; destruct (Hm w Hw) as (? & ? & ?); auto. Qed.

(** A step that makes no call. *)
Lemma spec_silent {A : Type} P allowed (m : M A) :
  (forall w, steady w (snd (m w)) /\ trace (snd (m w)) = trace w) ->
  spec P allowed m any.
Proof.
  intros H w _; destruct (H w) as [S T]; repeat split; try apply S.
  exists []; now rewrite app_nil_r.
Qed.

Lemma spec_emit P allowed (e : Event) :
  allowed e = true -> spec P allowed (emit e) any.
Proof.
  intros H w _; repeat split; simpl; auto.
  exists [e]; simpl; now rewrite H.
Qed.

Lemma spec_forEach {A : Type} P allowed (l : list A) (f : A -> M unit) :
  lasting P ->
  (forall x, In x l -> spec P allowed (f x) any) ->
  spec P allowed (forEach l f) any.
Proof.
  intros HP; induction l as [|x l IH]; intros H; simpl.
  - now apply spec_ret.
  - apply spec_bind with (R := any); auto.
    + apply H; now left.
    + intros _ _; apply IH; intros y Hy; apply H; now right.
Qed.

Ltac steady_now := split; [split; [reflexivity|simpl; auto]|reflexivity].
Ltac silent := apply spec_silent; intros ?w; steady_now.

Lemma spec_next_idb_fault P allowed : spec P allowed next_idb_fault any.
Proof.
  apply spec_silent; intros w; unfold next_idb_fault.
  destruct (idb_script w); steady_now.
Qed.

Lemma spec_next_ls_fault P allowed : spec P allowed next_ls_fault any.
Proof.
  apply spec_silent; intros w; unfold next_ls_fault.
  destruct (ls_script w); steady_now.
Qed.

Lemma spec_next_open P allowed : spec P allowed next_open any.
Proof.
  apply spec_silent; intros w; unfold next_open.
  destruct (open_script w); steady_now.
Qed.

Lemma spec_idb_get P allowed (k : jsstring) :
  lasting P -> allowed (IdbGet k) = true -> spec P allowed (idb_get k) any.
Proof.
  intros HP H; unfold idb_get.
  apply spec_bind with (R := any); auto using spec_emit; intros _ _.
  apply spec_bind with (R := any); auto using spec_next_idb_fault; intros f _.
  destruct f; [silent|now apply spec_ret].
Qed.

Lemma spec_idb_put P allowed (r : CacheRecord) :
  lasting P -> allowed (IdbPut (cacheKey r)) = true -> spec P allowed (idb_put r) any.
Proof.
  intros HP H; unfold idb_put.
  apply spec_bind with (R := any); auto using spec_emit; intros _ _.
  apply spec_bind with (R := any); auto using spec_next_idb_fault; intros f _.
  destruct f; [silent|now apply spec_ret].
Qed.

Lemma spec_idb_delete P allowed (k : jsstring) :
  lasting P -> allowed (IdbDelete k) = true -> spec P allowed (idb_delete k) any.
Proof.
  intros HP H; unfold idb_delete.
  apply spec_bind with (R := any); auto using spec_emit; intros _ _; silent.
Qed.

Lemma spec_idb_cursor_prev P allowed :
  lasting P -> allowed IdbOpenCursor = true -> spec P allowed idb_cursor_prev any.
Proof.
  intros HP H; unfold idb_cursor_prev.
  apply spec_bind with (R := any); auto using spec_emit; intros _ _.
  apply spec_bind with (R := any); auto using spec_next_idb_fault; intros f _.
  destruct f; [silent|now apply spec_ret].
Qed.

Lemma spec_ls_getItem P allowed (k : jsstring) :
  lasting P -> allowed (LsGetItem k) = true -> spec P allowed (ls_getItem k) any.
Proof.
  intros HP H; unfold ls_getItem.
  apply spec_bind with (R := any); auto using spec_emit; intros _ _; silent.
Qed.

Lemma spec_ls_setItem P allowed (k : jsstring) (v : Text) :
  lasting P -> allowed (LsSetItem k v) = true -> spec P allowed (ls_setItem k v) any.
Proof.
  intros HP H; unfold ls_setItem.
  apply spec_bind with (R := any); auto using spec_emit; intros _ _.
  apply spec_bind with (R := any); auto using spec_next_ls_fault; intros f _.
  destruct f; [silent|now apply spec_ret|now apply spec_ret].
Qed.

Lemma spec_ls_removeItem P allowed (k : jsstring) :
  lasting P -> allowed (LsRemoveItem k) = true -> spec P allowed (ls_removeItem k) any.
Proof.
  intros HP H; unfold ls_removeItem.
  apply spec_bind with (R := any); auto using spec_emit; intros _ _; silent.
Qed.

Lemma spec_ls_keys P allowed :
  lasting P -> allowed LsKeys = true -> spec P allowed ls_keys any.
Proof.
  intros HP H; unfold ls_keys.
  apply spec_bind with (R := any); auto using spec_emit; intros _ _; silent.
Qed.

Lemma spec_readEntries P allowed (cacheKeys : list jsstring) :
  lasting P ->
  (forall k, allowed (LsGetItem k) = true) ->
  spec P allowed (readEntries cacheKeys) any.
Proof.
  intros HP H; induction cacheKeys as [|k l IH]; simpl.
  - now apply spec_ret.
  - apply spec_bind with (R := any); auto using spec_ls_getItem; intros i _.
    apply spec_bind with (R := any); auto; intros es _.
    now apply spec_ret.
Qed.

(** *** The calls each function of the cache makes *)

Section CallSpecs.
Variable P : World -> Prop.
Variable allowed : Event -> bool.
(** What [getConversationCacheDB] can return in the sessions considered. *)
Variable Rdb : bool -> Prop.
Hypothesis P_lasting : lasting P.
Hypothesis db_spec : spec P allowed getConversationCacheDB Rdb.
Hypothesis get_allowed : Rdb true -> forall k, allowed (IdbGet k) = true.
Hypothesis put_allowed : Rdb true -> forall k, allowed (IdbPut k) = true.
Hypothesis delete_allowed : Rdb true -> forall k, allowed (IdbDelete k) = true.
Hypothesis cursor_allowed : Rdb true -> allowed IdbOpenCursor = true.
Hypothesis getItem_allowed : forall k, allowed (LsGetItem k) = true.
Hypothesis setItem_allowed : forall k v, allowed (LsSetItem k v) = true.
Hypothesis removeItem_allowed : forall k, allowed (LsRemoveItem k) = true.
Hypothesis keys_allowed : allowed LsKeys = true.

Ltac call :=
  first
    [ apply spec_ret; exact I
    | apply spec_idb_get; [assumption|auto]
    | apply spec_idb_put; [assumption|auto]
    | apply spec_idb_delete; [assumption|auto]
    | apply spec_idb_cursor_prev; [assumption|auto]
    | apply spec_ls_getItem; [assumption|auto]
    | apply spec_ls_setItem; [assumption|auto]
    | apply spec_ls_removeItem; [assumption|auto]
    | apply spec_ls_keys; [assumption|auto]
    | apply spec_readEntries; [assumption|auto]
    | apply spec_forEach; [assumption|intros ? _]
    | apply spec_bind with (R := any); [assumption| |intros ? _] ].

Ltac cases :=
  match goal with
  | |- spec _ _ (match ?x with _ => _ end) _ => destruct x
  end.

Lemma spec_deleteCachedConversation (k : jsstring) :
  spec P allowed (deleteCachedConversation k) any.
Proof.
  unfold deleteCachedConversation.
  apply spec_bind with (R := Rdb); auto; intros [|] Hdb; repeat call.
Qed.

Lemma spec_getCachedFromLocalStorage (k : jsstring) (now : Z) :
  spec P allowed (getCachedFromLocalStorage k now) any.
Proof.
  unfold getCachedFromLocalStorage; cbv zeta.
  call; [call|].
  destruct a as [text|]; [|call].
  destruct (text_falsy text); [call|].
  destruct (JSON_parse text) as [| |parsed]; try call.
  destruct (expired parsed now);
    [destruct (is_time_value (expiresAt parsed)); repeat call|].
  destruct (negb (truthy (data parsed))); [repeat call|].
  destruct (is_time_value (timestamp parsed)); call.
Qed.

Lemma spec_getCachedFromIndexedDB (k : jsstring) (now : Z) :
  Rdb true -> spec P allowed (getCachedFromIndexedDB k now) any.
Proof.
  intros Hdb; unfold getCachedFromIndexedDB.
  call; [call|].
  destruct a as [[cachedData|]|]; try call.
  destruct (expired cachedData now).
  - destruct (is_time_value (expiresAt cachedData)); [|call].
    call; [apply spec_deleteCachedConversation|call].
  - destruct (negb (truthy (data cachedData)));
      [|destruct (is_time_value (timestamp cachedData)); call].
    call; [apply spec_deleteCachedConversation|call].
Qed.

Lemma spec_getCachedConversations (a d : JsVal) (now : Z) :
  spec P allowed (getCachedConversations a d now) any.
Proof.
  unfold getCachedConversations; cbv zeta.
  apply spec_bind with (R := Rdb); auto; intros [|] Hdb.
  - now apply spec_getCachedFromIndexedDB.
  - apply spec_getCachedFromLocalStorage.
Qed.

Lemma spec_removeOldIndexedDBEntries (entries : list CacheRecord) :
  Rdb true -> spec P allowed (removeOldIndexedDBEntries entries) any.
Proof.
  intros Hdb; unfold removeOldIndexedDBEntries.
  destruct (Nat.eqb _ 0); [call|].
  call.
  - destruct (Nat.ltb _ _); repeat call.
  - destruct (andb _ _); repeat call.
Qed.

Lemma spec_removeOldLocalStorageEntries (cacheKeys : list jsstring) :
  spec P allowed (removeOldLocalStorageEntries cacheKeys) any.
Proof.
  unfold removeOldLocalStorageEntries.
  destruct (Nat.eqb _ 0); [call|].
  call; [call|].
  cbv zeta; destruct (Nat.ltb _ _); repeat call.
Qed.

Lemma spec_clearOldCacheEntries : spec P allowed clearOldCacheEntries any.
Proof.
  unfold clearOldCacheEntries.
  apply spec_bind with (R := Rdb); auto; intros [|] Hdb.
  - unfold clearOldIndexedDBEntries; call; [call|].
    cases; [now apply spec_removeOldIndexedDBEntries|call].
  - unfold clearOldLocalStorageEntries; call; [call|].
    apply spec_removeOldLocalStorageEntries.
Qed.

Lemma spec_cacheToLocalStorage (k : jsstring) (r : CacheRecord) :
  spec P allowed (cacheToLocalStorage k r) any.
Proof.
  unfold cacheToLocalStorage; cbv zeta.
  destruct (Z.ltb _ _); [call|].
  call; [call|].
  cases.
  - repeat call.
  - call; [apply spec_clearOldCacheEntries|].
    call; [call|].
    cases; repeat call.
  - call.
Qed.

Lemma spec_cacheConversations (a d p : JsVal) (now1 now2 : Z) :
  spec P allowed (cacheConversations a d p now1 now2) any.
Proof.
  unfold cacheConversations; cbv zeta.
  destruct (orb _ _); [call|].
  apply spec_bind with (R := Rdb); auto; intros [|] Hdb.
  - call; [silent|].
    call; [call|].
    cases.
    + destruct (is_time_value _); [call|].
      apply spec_bind with (R := any); [assumption|silent|intros ? _; call].
    + call; [apply spec_cacheToLocalStorage|call].
  - call; [apply spec_cacheToLocalStorage|call].
Qed.

Lemma spec_run_op (op : Op) (w : World) :
  P w -> steady w (run_op op w) /\ extends allowed w (run_op op w).
Proof.
  intros Hw; destruct op; simpl.
  - destruct (spec_getCachedConversations adminId0 date0 now w Hw) as (? & ? & _); auto.
  - destruct (spec_cacheConversations adminId0 date0 data0 now1 now2 w Hw) as (? & ? & _); auto.
  - destruct (spec_deleteCachedConversation cacheKey0 w Hw) as (? & ? & _); auto.
  - destruct (spec_clearOldCacheEntries w Hw) as (? & ? & _); auto.
Qed.

Lemma spec_run_session (ops : list Op) (w : World) :
  P w ->
  P (run_session ops w) /\ steady w (run_session ops w)
  /\ extends allowed w (run_session ops w).
Proof.
  revert w; induction ops as [|op ops IH]; intros w Hw; simpl.
  - auto using steady_refl, extends_refl.
  - destruct (spec_run_op op w Hw) as [S E].
    destruct (IH (run_op op w) (P_lasting _ _ S Hw)) as (P' & S' & E').
    eauto using steady_trans, extends_trans.
Qed.

End CallSpecs.

(** *** The handle *)

Lemma events_since_app (w w' : World) (evs : list Event) :
  trace w' = trace w ++ evs -> events_since w w' = evs.
Proof.
  intros H; unfold events_since; rewrite H, skipn_app, skipn_all, Nat.sub_diag.
  reflexivity.
Qed.

Lemma events_since_extends (allowed : Event -> bool) (w w' : World) :
  extends allowed w w' -> forallb allowed (events_since w w') = true.
Proof. intros (evs & H & A); now rewrite (events_since_app _ _ _ H). Qed.

(** Without IndexedDB on the platform. *)
Definition unavailable (w : World) : Prop := INDEXEDDB_AVAILABLE w = false.
(** With the handle in [dbInstance]. *)
Definition handle_held (w : World) : Prop :=
  INDEXEDDB_AVAILABLE w = true /\ dbInstance w = true.

Lemma lasting_unavailable : lasting unavailable.
Proof. intros w w' [A _] H; unfold unavailable in *; congruence. Qed.

Lemma lasting_handle_held : lasting handle_held.
Proof. intros w w' [A D] [H1 H2]; split; [congruence|auto]. Qed.

Lemma lasting_True : lasting (fun _ => True).
Proof. intros w w' _ _; exact I. Qed.

Lemma db_unavailable allowed : spec unavailable allowed getConversationCacheDB (eq false).
Proof.
  intros w Hw; unfold getConversationCacheDB, gets; rewrite bind_run; simpl.
  rewrite Hw; simpl; auto using steady_refl, extends_refl.
Qed.

Lemma db_handle_held allowed : spec handle_held allowed getConversationCacheDB (eq true).
Proof.
  intros w [Ha Hd]; unfold getConversationCacheDB, gets.
  rewrite bind_run; simpl; rewrite Ha; simpl.
  rewrite bind_run; simpl; rewrite Hd; simpl.
  auto using steady_refl, extends_refl.
Qed.

(** What [getConversationCacheDB] does, case by case. *)
Lemma getConversationCacheDB_cases (w : World) :
  getConversationCacheDB w =
  if negb (INDEXEDDB_AVAILABLE w) then (false, w)
  else if dbInstance w then (true, w)
  else match open_script w with
       | [] => (true, set_dbInstance true (set_trace (trace w ++ [IdbOpen]) w))
       | true :: rest =>
           (true, set_dbInstance true (set_open_script rest (set_trace (trace w ++ [IdbOpen]) w)))
       | false :: rest =>
           (false, set_open_script rest (set_trace (trace w ++ [IdbOpen]) w))
       end.
Proof.
  unfold getConversationCacheDB, gets, initConversationCacheDB, next_open, emit, bind, ret; simpl.
  destruct (INDEXEDDB_AVAILABLE w); simpl; [|reflexivity].
  destruct (dbInstance w); simpl; [reflexivity|].
  destruct (open_script w) as [|[|] rest]; reflexivity.
Qed.

Lemma db_any P allowed :
  allowed IdbOpen = true -> spec P allowed getConversationCacheDB any.
Proof.
  intros H w _; rewrite getConversationCacheDB_cases.
  assert (Q : forall a, steady w w /\ extends allowed w w /\ @any bool a)
    by (intros a; repeat split; auto using extends_refl).
  destruct (INDEXEDDB_AVAILABLE w); simpl; [|apply Q].
  destruct (dbInstance w) eqn:D; simpl; [apply Q|].
  assert (E : forallb allowed [IdbOpen] = true) by (simpl; now rewrite H).
  destruct (open_script w) as [|[|] rest]; simpl;
    (split; [split; simpl; auto; congruence|]);
    (split; [exists [IdbOpen]; auto|exact I]).
Qed.

(** The call leaves both tiers and the request scripts as they are. *)
Lemma getConversationCacheDB_frame (w : World) :
  idb (snd (getConversationCacheDB w)) = idb w
  /\ localStorage (snd (getConversationCacheDB w)) = localStorage w
  /\ idb_script (snd (getConversationCacheDB w)) = idb_script w
  /\ ls_script (snd (getConversationCacheDB w)) = ls_script w
  /\ INDEXEDDB_AVAILABLE (snd (getConversationCacheDB w)) = INDEXEDDB_AVAILABLE w
  /\ (fst (getConversationCacheDB w) = true -> handle_held (snd (getConversationCacheDB w))).
Proof.
  rewrite getConversationCacheDB_cases; unfold handle_held.
  destruct (INDEXEDDB_AVAILABLE w) eqn:A; simpl.
  - destruct (dbInstance w) eqn:D; simpl.
    + repeat split; auto.
    + destruct (open_script w) as [|[|] rest]; simpl; repeat split; auto; discriminate.
  - repeat split; auto; discriminate.
Qed.

Lemma session_unavailable (ops : list Op) (w : World) :
  unavailable w ->
  unavailable (run_session ops w)
  /\ extends (fun e => negb (is_structured e)) w (run_session ops w).
Proof.
  intros Hw.
  destruct (spec_run_session unavailable (fun e => negb (is_structured e)) (eq false))
    with (ops := ops) (w := w) as (H1 & _ & H2);
    auto using lasting_unavailable, db_unavailable; discriminate.
Qed.

Lemma session_handle_held (ops : list Op) (w : World) :
  handle_held w ->
  handle_held (run_session ops w)
  /\ extends (fun e => negb (is_open e)) w (run_session ops w).
Proof.
  intros Hw.
  destruct (spec_run_session handle_held (fun e => negb (is_open e)) (eq true))
    with (ops := ops) (w := w) as (H1 & _ & H2);
    auto using lasting_handle_held, db_handle_held.
Qed.

(** C5, as the code has it.  On a platform without IndexedDB no call of a
    session reaches the structured tier.  Once [dbInstance] holds the handle
    it is kept, and no call of the session opens the database again.  An
    open that succeeds stores the handle.  An open that fails stores
    nothing: the next call opens again. *)
Theorem C5_handle_and_unavailability (ops : list Op) (w : World) :
  (unavailable w ->
     forallb (fun e => negb (is_structured e)) (events_since w (run_session ops w)) = true)
  /\ (handle_held w ->
      handle_held (run_session ops w)
      /\ forallb (fun e => negb (is_open e)) (events_since w (run_session ops w)) = true)
  /\ (INDEXEDDB_AVAILABLE w = true -> dbInstance w = false ->
      hd true (open_script w) = true ->
      fst (getConversationCacheDB w) = true
      /\ handle_held (snd (getConversationCacheDB w)))
  /\ (INDEXEDDB_AVAILABLE w = true -> dbInstance w = false ->
      hd true (open_script w) = false ->
      fst (getConversationCacheDB w) = false
      /\ dbInstance (snd (getConversationCacheDB w)) = false
      /\ events_since (snd (getConversationCacheDB w))
                      (snd (getConversationCacheDB (snd (getConversationCacheDB w))))
         = [IdbOpen]).
Proof.
  split; [|split; [|split]].
  - intros Hw; apply events_since_extends; now apply session_unavailable.
  - intros Hw; destruct (session_handle_held ops w Hw) as [H1 H2]; split; auto.
    now apply events_since_extends.
  - intros Ha Hd Ho; rewrite getConversationCacheDB_cases, Ha, Hd; simpl.
    unfold handle_held.
    destruct (open_script w) as [|[|] rest]; simpl in *; auto; discriminate.
  - intros Ha Hd Ho; rewrite (getConversationCacheDB_cases w), Ha, Hd; simpl.
    destruct (open_script w) as [|[|] rest]; simpl in *; try discriminate.
    repeat split; auto.
    apply events_since_app.
    rewrite getConversationCacheDB_cases; simpl; rewrite Ha, Hd; simpl.
    destruct rest as [|[|] rest']; reflexivity.
Qed.

(** ** Writing to localStorage *)

Ltac run_calls :=
  unfold cacheToLocalStorage, clearOldCacheEntries, clearOldIndexedDBEntries,
    clearOldLocalStorageEntries, getCachedConversations, getCachedFromIndexedDB,
    getCachedFromLocalStorage, deleteCachedConversation,
    idb_get, idb_put, idb_delete, idb_cursor_prev,
    ls_getItem, ls_setItem, ls_removeItem, ls_keys,
    next_idb_fault, next_ls_fault, emit, gets, bind, ret.

Lemma unavailable_db (w : World) :
  unavailable w -> getConversationCacheDB w = (false, w).
Proof. intros H; rewrite getConversationCacheDB_cases, H; reflexivity. Qed.

Lemma handle_held_db (w : World) :
  handle_held w -> getConversationCacheDB w = (true, w).
Proof. intros [Ha Hd]; rewrite getConversationCacheDB_cases, Ha, Hd; reflexivity. Qed.

(** C9, as the code has it.  A record whose serialised form is longer than
    2 MiB is refused by [cacheToLocalStorage] before any call is made: the
    world is left as it was, so there is no write, no clean-up and no second
    attempt; through [cacheConversations] on a platform without IndexedDB
    the store reports [false] in the same way.  The result is the plain
    [false] that a write failing for another reason returns as well. *)
Theorem C9_oversize_rejected (cacheKey : jsstring) (cacheData : CacheRecord) (w : World) :
  (MAX_LOCALSTORAGE_ENTRY_SIZE < text_length (JSON_stringify cacheData))%Z ->
  cacheToLocalStorage cacheKey cacheData w = (false, w)
  /\ (forall adminId date data now1 now2,
        cacheData = buildCacheData adminId date data now1 now2 ->
        unavailable w ->
        cacheConversations adminId date data now1 now2 w = (Resolved false, w))
  /\ (forall other (w2 : World),
        (text_length (JSON_stringify other) <= MAX_LOCALSTORAGE_ENTRY_SIZE)%Z ->
        hd LsFine (ls_script w2) = LsOtherError ->
        fst (cacheToLocalStorage cacheKey other w2) = false).
Proof.
  intros Hbig.
  assert (E : cacheToLocalStorage cacheKey cacheData w = (false, w)).
  { unfold cacheToLocalStorage; cbv zeta.
    apply Z.ltb_lt in Hbig; now rewrite Hbig. }
  split; [exact E|split].
  - intros adminId date data now1 now2 -> Hw.
    unfold cacheConversations; cbv zeta.
    destruct (orb _ _); [reflexivity|].
    rewrite bind_run, (unavailable_db _ Hw); simpl.
    rewrite bind_run.
    unfold cacheToLocalStorage; cbv zeta.
    apply Z.ltb_lt in Hbig; now rewrite Hbig.
  - intros other w2 Hsmall Herr.
    unfold cacheToLocalStorage; cbv zeta.
    apply Z.ltb_ge in Hsmall; rewrite Hsmall.
    run_calls; simpl.
    destruct (ls_script w2) as [|f rest]; simpl in Herr; [discriminate|].
    subst f; reflexivity.
Qed.

(** ** The two tiers as stores *)

Lemma find_removed (k : jsstring) (l : list CacheRecord) :
  find (has_key k) (filter (fun x => negb (has_key k x)) l) = None.
Proof.
  induction l as [|x l IH]; simpl; [reflexivity|].
  destruct (has_key k x) eqn:E; simpl; [exact IH|now rewrite E].
Qed.

Lemma find_app_none (k : jsstring) (l l' : list CacheRecord) :
  find (has_key k) l = None -> find (has_key k) (l ++ l') = find (has_key k) l'.
Proof.
  induction l as [|x l IH]; simpl; [reflexivity|].
  destruct (has_key k x); [discriminate|exact IH].
Qed.

Lemma find_put (r : CacheRecord) (l : list CacheRecord) :
  find (has_key (cacheKey r))
       (filter (fun x => negb (has_key (cacheKey r) x)) l ++ [r]) = Some r.
Proof.
  rewrite find_app_none by apply find_removed.
  simpl; unfold has_key; now rewrite str_eqb_refl.
Qed.

Lemma ls_find_update (k : jsstring) (v : Text) (l : list (jsstring * Text)) :
  ls_find k (ls_update k v l) = Some v.
Proof.
  induction l as [|[k' v'] l IH]; simpl.
  - now rewrite str_eqb_refl.
  - destruct (str_eqb k' k) eqn:E; simpl; [now rewrite str_eqb_refl|now rewrite E].
Qed.

Lemma ls_find_remove (k : jsstring) (l : list (jsstring * Text)) :
  ls_find k (ls_remove k l) = None.
Proof.
  unfold ls_remove; induction l as [|[k' v'] l IH]; simpl; [reflexivity|].
  destruct (str_eqb k' k) eqn:E; simpl; [exact IH|now rewrite E].
Qed.

(** The tier a lookup reads holds the record under its key. *)
Definition holds (r : CacheRecord) (w : World) : Prop :=
  if INDEXEDDB_AVAILABLE w
  then find (has_key (cacheKey r)) (idb w) = Some r
  else ls_find (CONVERSATION_CACHE_PREFIX ++ cacheKey r) (localStorage w)
       = Some (JSON_stringify r).

(** Neither tier holds anything under the key. *)
Definition purged (k : jsstring) (w : World) : Prop :=
  find (has_key k) (idb w) = None
  /\ ls_find (CONVERSATION_CACHE_PREFIX ++ k) (localStorage w) = None.

(** *** Lookup in the object store *)

Lemma idb_lookup_miss (k : jsstring) (now : Z) (w : World) :
  find (has_key k) (idb w) = None \/ hd IdbFine (idb_script w) = IdbRequestError ->
  fst (getCachedFromIndexedDB k now w) = Resolved None
  /\ idb (snd (getCachedFromIndexedDB k now w)) = idb w
  /\ localStorage (snd (getCachedFromIndexedDB k now w)) = localStorage w.
Proof.
  intros H; run_calls; simpl.
  destruct (idb_script w) as [|[|] rest]; simpl in *.
  - destruct H as [->|H]; [auto|discriminate].
  - destruct H as [->|H]; [auto|discriminate].
  - auto.
Qed.

(** The three ways a lookup of a record that is found can end. *)
Definition ends_in_hit (r : CacheRecord) (now : Z) : Prop :=
  expired r now = false /\ truthy (data r) = true /\ is_time_value (timestamp r) = true.

Definition ends_in_purge (r : CacheRecord) (now : Z) : Prop :=
  (expired r now = true /\ is_time_value (expiresAt r) = true)
  \/ (expired r now = false /\ truthy (data r) = false).

Definition ends_in_RangeError (r : CacheRecord) (now : Z) : Prop :=
  (expired r now = true /\ is_time_value (expiresAt r) = false)
  \/ (expired r now = false /\ truthy (data r) = true
      /\ is_time_value (timestamp r) = false).

Lemma lookup_ends (r : CacheRecord) (now : Z) :
  ends_in_hit r now \/ ends_in_purge r now \/ ends_in_RangeError r now.
Proof.
  unfold ends_in_hit, ends_in_purge, ends_in_RangeError.
  destruct (expired r now), (truthy (data r)), (is_time_value (expiresAt r)),
    (is_time_value (timestamp r)); intuition.
Qed.

Lemma idb_lookup_found (k : jsstring) (now : Z) (w : World) (r : CacheRecord) :
  handle_held w ->
  hd IdbFine (idb_script w) = IdbFine ->
  find (has_key k) (idb w) = Some r ->
  (ends_in_hit r now ->
     fst (getCachedFromIndexedDB k now w) = Resolved (Some (data r))
     /\ idb (snd (getCachedFromIndexedDB k now w)) = idb w
     /\ localStorage (snd (getCachedFromIndexedDB k now w)) = localStorage w)
  /\ (ends_in_purge r now ->
      fst (getCachedFromIndexedDB k now w) = Resolved None
      /\ purged k (snd (getCachedFromIndexedDB k now w)))
  /\ (ends_in_RangeError r now ->
      fst (getCachedFromIndexedDB k now w) = Pending
      /\ idb (snd (getCachedFromIndexedDB k now w)) = idb w
      /\ localStorage (snd (getCachedFromIndexedDB k now w)) = localStorage w).
Proof.
  intros [Ha Hd] Hf Hr.
  unfold getCachedFromIndexedDB, deleteCachedConversation.
  rewrite bind_run.
  assert (E : fst (idb_get k w) = OnSuccess (Some r)
              /\ handle_held (snd (idb_get k w))
              /\ idb (snd (idb_get k w)) = idb w
              /\ localStorage (snd (idb_get k w)) = localStorage w).
  { unfold handle_held; run_calls; simpl.
    destruct (idb_script w) as [|[|] rest]; simpl in *; try discriminate;
      rewrite Hr; auto. }
  destruct E as (E1 & E2 & E3 & E4); rewrite E1.
  assert (Q : forall m : M (Settled (option JsVal)),
             m = (deleteCachedConversation k ;; ret (Resolved None)) ->
             fst (m (snd (idb_get k w))) = Resolved None
             /\ purged k (snd (m (snd (idb_get k w))))).
  { intros m ->; unfold deleteCachedConversation.
    rewrite !bind_run, (handle_held_db _ E2); simpl.
    unfold purged; simpl; rewrite E3, E4.
    split; [reflexivity|split; [apply find_removed|apply ls_find_remove]]. }
  split; [|split].
  - intros (He & Ht & Hv); rewrite He, Ht, Hv; simpl; auto.
  - intros [[He Hv]|[He Ht]]; rewrite He.
    + rewrite Hv; now apply Q.
    + rewrite Ht; simpl; now apply Q.
  - intros [[He Hv]|(He & Ht & Hv)]; rewrite He.
    + rewrite Hv; simpl; auto.
    + rewrite Ht, Hv; simpl; auto.
Qed.

(** *** Lookup in localStorage *)

Lemma ls_lookup_found (k : jsstring) (now : Z) (w : World) (text : Text) (r : CacheRecord) :
  ls_find (CONVERSATION_CACHE_PREFIX ++ k) (localStorage w) = Some text ->
  text_falsy text = false ->
  JSON_parse text = ParsedRecord r ->
  (ends_in_hit r now ->
     fst (getCachedFromLocalStorage k now w) = Resolved (Some (data r))
     /\ idb (snd (getCachedFromLocalStorage k now w)) = idb w
     /\ localStorage (snd (getCachedFromLocalStorage k now w)) = localStorage w)
  /\ (ends_in_purge r now ->
      fst (getCachedFromLocalStorage k now w) = Resolved None
      /\ idb (snd (getCachedFromLocalStorage k now w)) = idb w
      /\ ls_find (CONVERSATION_CACHE_PREFIX ++ k)
                 (localStorage (snd (getCachedFromLocalStorage k now w))) = None)
  /\ (ends_in_RangeError r now ->
      fst (getCachedFromLocalStorage k now w) = Resolved None
      /\ idb (snd (getCachedFromLocalStorage k now w)) = idb w
      /\ localStorage (snd (getCachedFromLocalStorage k now w)) = localStorage w).
Proof.
  intros Hf Hn Hp; run_calls; simpl.
  rewrite Hf, Hn, Hp; split; [|split].
  - intros (He & Ht & Hv); rewrite He, Ht, Hv; simpl; auto.
  - intros [[He Hv]|[He Ht]]; rewrite He.
    + rewrite Hv; simpl; repeat split; auto; apply ls_find_remove.
    + rewrite Ht; simpl; repeat split; auto; apply ls_find_remove.
  - intros [[He Hv]|(He & Ht & Hv)]; rewrite He.
    + rewrite Hv; simpl; auto.
    + rewrite Ht, Hv; simpl; auto.
Qed.

(** *** Lookup *)

(** A call made in [w] gets the handle: it is held already, or the open
    succeeds. *)
Definition obtains_handle (w : World) : bool := fst (getConversationCacheDB w).

Lemma getCachedConversations_run (adminId date : JsVal) (now : Z) (w : World) :
  getCachedConversations adminId date now w =
  if obtains_handle w
  then getCachedFromIndexedDB (getConversationCacheKey adminId date) now
                              (snd (getConversationCacheDB w))
  else getCachedFromLocalStorage (getConversationCacheKey adminId date) now
                                 (snd (getConversationCacheDB w)).
Proof.
  unfold getCachedConversations, obtains_handle; cbv zeta; rewrite bind_run.
  now destruct (fst (getConversationCacheDB w)).
Qed.

(** C2, as the code has it.  In either tier the check of a stored record
    looks at whether its payload is present (truthy), not at whether the
    payload holds a list.  A record without a payload is reported as a miss
    and removed from the tier.  A record that has not expired and has a
    payload is returned, and the tier is left as it was.  Both log lines
    render a time of the record as a Date first: [expiresAt] before an
    expired record is removed, [timestamp] before the payload is returned.
    For a time that no Date can hold the rendering throws, and the record
    stays where it is; the lookup in the structured tier then never
    resolves, and the lookup in the flat tier reports a miss. *)
Theorem C2_payload_presence (adminId date : JsVal) (now : Z) (w : World) (r : CacheRecord) :
  let key := getConversationCacheKey adminId date in
  let answer := fst (getCachedConversations adminId date now w) in
  let w' := snd (getCachedConversations adminId date now w) in
  (obtains_handle w = true ->
   hd IdbFine (idb_script w) = IdbFine ->
   find (has_key key) (idb w) = Some r ->
   (truthy (data r) = false ->
    (expired r now = true -> is_time_value (expiresAt r) = true) ->
    answer = Resolved None /\ purged key w')
   /\ (truthy (data r) = true -> expired r now = false ->
       is_time_value (timestamp r) = true ->
       answer = Resolved (Some (data r)) /\ idb w' = idb w)
   /\ ((expired r now = true /\ is_time_value (expiresAt r) = false)
       \/ (expired r now = false /\ truthy (data r) = true
           /\ is_time_value (timestamp r) = false) ->
       answer = Pending /\ idb w' = idb w /\ localStorage w' = localStorage w))
  /\ (obtains_handle w = false ->
      forall text,
      ls_find (CONVERSATION_CACHE_PREFIX ++ key) (localStorage w) = Some text ->
      text_falsy text = false ->
      JSON_parse text = ParsedRecord r ->
      (truthy (data r) = false ->
       (expired r now = true -> is_time_value (expiresAt r) = true) ->
       answer = Resolved None
       /\ ls_find (CONVERSATION_CACHE_PREFIX ++ key) (localStorage w') = None)
      /\ (truthy (data r) = true -> expired r now = false ->
          is_time_value (timestamp r) = true ->
          answer = Resolved (Some (data r)) /\ localStorage w' = localStorage w)
      /\ ((expired r now = true /\ is_time_value (expiresAt r) = false)
          \/ (expired r now = false /\ truthy (data r) = true
              /\ is_time_value (timestamp r) = false) ->
          answer = Resolved None /\ idb w' = idb w /\ localStorage w' = localStorage w)).
Proof.
  intros key answer w'; unfold answer, w', key; clear answer w' key.
  destruct (getConversationCacheDB_frame w) as (Fi & Fl & Fs & _ & _ & Fh).
  assert (Hpurge : truthy (data r) = false ->
                   (expired r now = true -> is_time_value (expiresAt r) = true) ->
                   ends_in_purge r now).
  { intros Ht He; unfold ends_in_purge.
    destruct (expired r now); [left|right]; auto. }
  split.
  - intros Hdb Hf Hr; rewrite getCachedConversations_run, Hdb.
    rewrite <- Fs in Hf; rewrite <- Fi in Hr.
    destruct (idb_lookup_found _ now _ _ (Fh Hdb) Hf Hr) as (Hit & Miss & Hang).
    split; [|split].
    + intros Ht He; apply Miss; auto.
    + intros Ht He Hv; destruct Hit as (? & ? & ?); [repeat split; auto|].
      split; congruence.
    + intros H; destruct (Hang H) as (? & ? & ?); repeat split; congruence.
  - intros Hdb text Hf Hn Hp; rewrite getCachedConversations_run, Hdb.
    rewrite <- Fl in Hf.
    destruct (ls_lookup_found _ now _ _ _ Hf Hn Hp) as (Hit & Miss & Kept).
    split; [|split].
    + intros Ht He; destruct Miss as (? & ? & ?); auto.
    + intros Ht He Hv; destruct Hit as (? & ? & ?); [repeat split; auto|].
      split; congruence.
    + intros H; destruct (Kept H) as (? & ? & ?); repeat split; congruence.
Qed.

Lemma idb_lookup_no_getItem (k : jsstring) (now : Z) :
  spec (fun _ => True) (fun e => negb (is_getItem e)) (getCachedFromIndexedDB k now) any.
Proof.
  apply spec_getCachedFromIndexedDB with (Rdb := any);
    auto using lasting_True; try exact I.
  apply db_any; reflexivity.
Qed.

(** C3, as the code has it.  A lookup reads the flat tier exactly when it
    does not get the handle of the structured tier.  With the handle, the
    answer of the structured tier is final: a miss, and likewise a request
    that fails, is reported as absent, and localStorage is not read. *)
Theorem C3_flat_tier_only_without_handle (adminId date : JsVal) (now : Z) (w : World) :
  (obtains_handle w = false ->
     getCachedConversations adminId date now w
     = getCachedFromLocalStorage (getConversationCacheKey adminId date) now
                                 (snd (getConversationCacheDB w))
     /\ In (LsGetItem (CONVERSATION_CACHE_PREFIX ++ getConversationCacheKey adminId date))
           (events_since w (snd (getCachedConversations adminId date now w))))
  /\ (obtains_handle w = true ->
      forallb (fun e => negb (is_getItem e))
              (events_since w (snd (getCachedConversations adminId date now w))) = true
      /\ (find (has_key (getConversationCacheKey adminId date)) (idb w) = None
          \/ hd IdbFine (idb_script w) = IdbRequestError ->
          fst (getCachedConversations adminId date now w) = Resolved None)).
Proof.
  destruct (getConversationCacheDB_frame w) as (Fi & Fl & Fs & _ & _ & Fh).
  split; intros Hdb; rewrite getCachedConversations_run, Hdb.
  - split; [reflexivity|].
    destruct (db_any (fun _ => True) (fun _ => true) eq_refl w I) as (_ & (e1 & T1 & _) & _).
    set (w1 := snd (getConversationCacheDB w)) in *.
    set (k := CONVERSATION_CACHE_PREFIX ++ getConversationCacheKey adminId date).
    assert (E : exists e2, trace (snd (getCachedFromLocalStorage
                                         (getConversationCacheKey adminId date) now w1))
                           = trace w1 ++ LsGetItem k :: e2).
    { run_calls; simpl; fold k.
      destruct (ls_find k (localStorage w1)) as [text|]; [|now exists []].
      destruct (text_falsy text); [now exists []|].
      destruct (JSON_parse text) as [| |parsed]; try now exists [].
      destruct (expired parsed now); simpl.
      - destruct (is_time_value (expiresAt parsed)); simpl;
          [exists [LsRemoveItem k]; now rewrite <- app_assoc|now exists []].
      - destruct (truthy (data parsed)); simpl;
          [destruct (is_time_value (timestamp parsed)); now exists []
          |exists [LsRemoveItem k]; now rewrite <- app_assoc]. }
    destruct E as (e2 & T2).
    rewrite T1, <- app_assoc in T2.
    rewrite (events_since_app _ _ _ T2).
    apply in_or_app; right; now left.
  - split.
    + apply events_since_extends.
      eapply extends_trans.
      * apply (db_any (fun _ => True) (fun e => negb (is_getItem e)) eq_refl w I).
      * apply (idb_lookup_no_getItem _ now _ I).
    + intros H; apply idb_lookup_miss; now rewrite Fi, Fs.
Qed.

(** *** Store, then lookup, on a platform without faults *)

(** The tier a lookup reads holds nothing under the key. *)
Definition absent (k : jsstring) (w : World) : Prop :=
  if INDEXEDDB_AVAILABLE w
  then find (has_key k) (idb w) = None
  else ls_find (CONVERSATION_CACHE_PREFIX ++ k) (localStorage w) = None.

Lemma fault_free_db (w : World) :
  fault_free w ->
  obtains_handle w = INDEXEDDB_AVAILABLE w
  /\ fault_free (snd (getConversationCacheDB w)).
Proof.
  intros (Ho & Hi & Hl); unfold obtains_handle, fault_free.
  rewrite getConversationCacheDB_cases.
  destruct (INDEXEDDB_AVAILABLE w); simpl; auto.
  destruct (dbInstance w); simpl; auto.
  rewrite Ho; simpl; auto.
Qed.

Lemma lookup_steady (adminId date : JsVal) (now : Z) (w : World) :
  steady w (snd (getCachedConversations adminId date now w)).
Proof.
  apply (spec_getCachedConversations (fun _ => True) (fun _ => true) any);
    auto using lasting_True.
  now apply db_any.
Qed.

Lemma has_list_field_truthy (payload : JsVal) :
  has_list_field payload = true -> truthy payload = true.
Proof. destruct payload; simpl; auto; discriminate. Qed.

Lemma store_fault_free (adminId date data : JsVal) (now1 now2 : Z) (w : World) :
  fault_free w ->
  truthy adminId = true -> truthy date = true -> truthy data = true ->
  (text_length (JSON_stringify (buildCacheData adminId date data now1 now2))
   <= MAX_LOCALSTORAGE_ENTRY_SIZE)%Z ->
  text_falsy (JSON_stringify (buildCacheData adminId date data now1 now2)) = false ->
  is_time_value (expiresAt (buildCacheData adminId date data now1 now2)) = true ->
  fst (cacheConversations adminId date data now1 now2 w) = Resolved true
  /\ fault_free (snd (cacheConversations adminId date data now1 now2 w))
  /\ holds (buildCacheData adminId date data now1 now2)
           (snd (cacheConversations adminId date data now1 now2 w)).
Proof.
  intros Hff Ha Hd Hp Hsize Hne Hclock.
  destruct (fault_free_db w Hff) as [Hdb (Ho & Hi & Hl)].
  destruct (getConversationCacheDB_frame w) as (Fi & Fl & Fs & Fls & Fa & Fh).
  unfold cacheConversations; rewrite Ha, Hd, Hp; cbv zeta; cbn [negb orb].
  rewrite bind_run; fold (obtains_handle w); rewrite Hdb.
  set (r := buildCacheData adminId date data now1 now2) in *.
  set (w1 := snd (getConversationCacheDB w)) in *.
  unfold holds, fault_free.
  destruct (INDEXEDDB_AVAILABLE w) eqn:A.
  - rewrite Hclock; run_calls; simpl; rewrite Hi; simpl; rewrite Fa.
    repeat split; auto; apply (find_put r).
  - rewrite bind_run; unfold cacheToLocalStorage; cbv zeta.
    apply Z.ltb_ge in Hsize; rewrite Hsize, Hclock.
    run_calls; simpl; rewrite Hl; simpl.
    rewrite ls_find_update, Fa; unfold verified; rewrite Hne; auto.
Qed.

Lemma lookup_of_held_record (adminId date : JsVal) (now : Z) (w : World) (r : CacheRecord) :
  fault_free w ->
  holds r w ->
  cacheKey r = getConversationCacheKey adminId date ->
  text_falsy (JSON_stringify r) = false ->
  JSON_parse (JSON_stringify r) = ParsedRecord r ->
  (ends_in_hit r now ->
     fst (getCachedConversations adminId date now w) = Resolved (Some (data r))
     /\ holds r (snd (getCachedConversations adminId date now w)))
  /\ (ends_in_purge r now ->
      fst (getCachedConversations adminId date now w) = Resolved None
      /\ absent (cacheKey r) (snd (getCachedConversations adminId date now w))).
Proof.
  intros Hff Hh Hk Hne Hrt.
  destruct (lookup_steady adminId date now w) as [Sa _].
  destruct (fault_free_db w Hff) as [Hdb (Ho & Hi & Hl)].
  destruct (getConversationCacheDB_frame w) as (Fi & Fl & Fs & Fls & Fa & Fh).
  unfold holds, absent in *; rewrite Sa.
  rewrite getCachedConversations_run, Hdb.
  rewrite Hk in *.
  destruct (INDEXEDDB_AVAILABLE w) eqn:A.
  - rewrite <- Fi in Hh.
    assert (Hf : hd IdbFine (idb_script (snd (getConversationCacheDB w))) = IdbFine)
      by now rewrite Hi.
    destruct (idb_lookup_found _ now _ _ (Fh Hdb) Hf Hh) as (Hit & Miss & _).
    split.
    + intros H; destruct (Hit H) as (? & E & ?); split; [auto|].
      now rewrite E.
    + intros H; destruct (Miss H) as (? & ? & ?); auto.
  - rewrite <- Fl in Hh.
    destruct (ls_lookup_found _ now _ _ _ Hh Hne Hrt) as (Hit & Miss & _).
    split.
    + intros H; destruct (Hit H) as (? & ? & E); split; [auto|].
      now rewrite E.
    + intros H; destruct (Miss H) as (? & ? & ?); auto.
Qed.

(** The record survives [JSON.stringify] followed by [JSON.parse], and its
    serialised form is not the empty string. *)
Definition round_trips (r : CacheRecord) : Prop :=
  text_falsy (JSON_stringify r) = false
  /\ JSON_parse (JSON_stringify r) = ParsedRecord r.

Definition DAY : Z := 24 * 60 * 60 * 1000.
Definition MINUTE : Z := 60 * 1000.

Lemma buildCacheData_fields (a d p : JsVal) (now1 now2 : Z) :
  expiresAt (buildCacheData a d p now1 now2) = (now1 + DAY)%Z
  /\ timestamp (buildCacheData a d p now1 now2) = now2
  /\ data (buildCacheData a d p now1 now2) = p
  /\ cacheKey (buildCacheData a d p now1 now2) = getConversationCacheKey a d.
Proof. repeat split. Qed.

Lemma expired_buildCacheData (a d p : JsVal) (now1 now2 now : Z) :
  ((now <= now1 + DAY)%Z -> expired (buildCacheData a d p now1 now2) now = false)
  /\ ((0 <= now1)%Z -> (now1 + DAY < now)%Z ->
      expired (buildCacheData a d p now1 now2) now = true).
Proof.
  unfold expired; destruct (buildCacheData_fields a d p now1 now2) as (-> & _).
  unfold DAY; split.
  - intros H; apply andb_false_iff; right; apply Z.ltb_ge; lia.
  - intros H0 H; apply andb_true_iff; split.
    + apply negb_true_iff, Z.eqb_neq; lia.
    + apply Z.ltb_lt; lia.
Qed.

Lemma hit_of_buildCacheData (a d p : JsVal) (now1 now2 now : Z) :
  truthy p = true -> is_time_value now2 = true -> (now <= now1 + DAY)%Z ->
  ends_in_hit (buildCacheData a d p now1 now2) now.
Proof.
  intros Hp Hclock Hnow; repeat split; auto.
  now apply expired_buildCacheData.
Qed.

Lemma purge_of_buildCacheData (a d p : JsVal) (now1 now2 now : Z) :
  (0 <= now1)%Z -> is_time_value (now1 + DAY) = true -> (now1 + DAY < now)%Z ->
  ends_in_purge (buildCacheData a d p now1 now2) now.
Proof.
  intros H0 Hclock Hnow; left; split; [|exact Hclock].
  now apply expired_buildCacheData.
Qed.

(** C1, as the code has it.  On a platform that injects no fault, for every
    identifier, date and payload that are present (truthy), whose record is
    at most 2 MiB long when serialised and survives serialisation, the
    store reports success and a lookup made before the record expires
    returns the payload itself.  The reading [now2] of the clock, with which
    the record is stamped, and the time [now1 + DAY] at which it expires are
    time values, as they are for every reading of a clock. *)
Theorem C1_round_trip (a d p : JsVal) (now1 now2 now : Z) (w : World) :
  fault_free w ->
  truthy a = true -> truthy d = true -> truthy p = true ->
  (text_length (JSON_stringify (buildCacheData a d p now1 now2))
   <= MAX_LOCALSTORAGE_ENTRY_SIZE)%Z ->
  round_trips (buildCacheData a d p now1 now2) ->
  is_time_value now2 = true ->
  is_time_value (now1 + DAY) = true ->
  (now <= now1 + DAY)%Z ->
  fst (cacheConversations a d p now1 now2 w) = Resolved true
  /\ fst (getCachedConversations a d now (snd (cacheConversations a d p now1 now2 w)))
     = Resolved (Some p).
Proof.
  intros Hff Ha Hd Hp Hsize [Hne Hrt] Hclock Hexp Hnow.
  destruct (store_fault_free a d p now1 now2 w Hff Ha Hd Hp Hsize Hne Hexp)
    as (S1 & S2 & S3).
  split; [exact S1|].
  destruct (lookup_of_held_record a d now _ _ S2 S3 eq_refl Hne Hrt) as [Hit _].
  apply Hit; now apply hit_of_buildCacheData.
Qed.

(** C6, as the code has it.  The record a store builds expires 24 hours
    after the clock reading taken at line 228, and is stamped with a second
    reading, taken at line 235: [expiresAt] is [timestamp] plus 24 hours
    when the two readings are the same.  On a platform that injects no
    fault the store puts that record into the tier lookups read; a lookup
    up to [expiresAt], such as one 23 hours 59 minutes after the first
    reading, returns the payload and leaves the record, with its
    [expiresAt], where it is; a later lookup, such as one 24 hours 1 minute
    after, is a miss and removes the record.  The readings of the clock are
    time values, and so is the first reading plus 24 hours. *)
Theorem C6_expiry (a d p : JsVal) (now1 now2 now : Z) (w : World) :
  fault_free w ->
  truthy a = true -> truthy d = true -> truthy p = true ->
  (text_length (JSON_stringify (buildCacheData a d p now1 now2))
   <= MAX_LOCALSTORAGE_ENTRY_SIZE)%Z ->
  round_trips (buildCacheData a d p now1 now2) ->
  (0 <= now1)%Z ->
  is_time_value now2 = true ->
  is_time_value (now1 + 24 * 60 * 60 * 1000) = true ->
  let r := buildCacheData a d p now1 now2 in
  let w1 := snd (cacheConversations a d p now1 now2 w) in
  expiresAt r = (now1 + 24 * 60 * 60 * 1000)%Z
  /\ timestamp r = now2
  /\ (now1 = now2 -> expiresAt r = (timestamp r + 24 * 60 * 60 * 1000)%Z)
  /\ fst (cacheConversations a d p now1 now2 w) = Resolved true
  /\ holds r w1
  /\ ((now <= expiresAt r)%Z ->
      fst (getCachedConversations a d now w1) = Resolved (Some p)
      /\ holds r (snd (getCachedConversations a d now w1)))
  /\ ((expiresAt r < now)%Z ->
      fst (getCachedConversations a d now w1) = Resolved None
      /\ absent (cacheKey r) (snd (getCachedConversations a d now w1)))
  /\ fst (getCachedConversations a d (now1 + 23 * 60 * MINUTE + 59 * MINUTE) w1)
     = Resolved (Some p)
  /\ fst (getCachedConversations a d (now1 + 24 * 60 * MINUTE + 1 * MINUTE) w1)
     = Resolved None
  /\ absent (cacheKey r)
            (snd (getCachedConversations a d (now1 + 24 * 60 * MINUTE + 1 * MINUTE) w1)).
Proof.
  intros Hff Ha Hd Hp Hsize [Hne Hrt] H0 Hc2 Hc1 r w1.
  destruct (store_fault_free a d p now1 now2 w Hff Ha Hd Hp Hsize Hne Hc1)
    as (S1 & S2 & S3).
  fold r in S3, Hne, Hrt; fold w1 in S2, S3.
  assert (L : forall t,
             ((t <= now1 + DAY)%Z ->
                fst (getCachedConversations a d t w1) = Resolved (Some p)
                /\ holds r (snd (getCachedConversations a d t w1)))
             /\ ((now1 + DAY < t)%Z ->
                 fst (getCachedConversations a d t w1) = Resolved None
                 /\ absent (cacheKey r) (snd (getCachedConversations a d t w1)))).
  { intros t.
    destruct (lookup_of_held_record a d t w1 r S2 S3 eq_refl Hne Hrt) as [Hit Miss].
    split; intros Ht.
    - apply Hit; now apply hit_of_buildCacheData.
    - apply Miss; now apply purge_of_buildCacheData. }
  assert (E : expiresAt r = (now1 + DAY)%Z) by reflexivity.
  unfold DAY, MINUTE in *.
  repeat split; try reflexivity; auto.
  - intros ->; reflexivity.
  - apply L; lia.
  - apply L; lia.
  - apply L; lia.
  - apply L; lia.
  - apply L; lia.
  - apply L; lia.
  - apply L; lia.
Qed.

(** ** Sorting *)

Section SortingFacts.
Context {A : Type}.
Variable before : A -> A -> bool.
Variable R : A -> A -> Prop.
Hypothesis before_R : forall x y, before x y = true -> R x y.
Hypothesis not_before_R : forall x y, before x y = false -> R y x.
Hypothesis R_trans : forall x y z, R x y -> R y z -> R x z.

Lemma insert_sorted_perm (x : A) (l : list A) :
  Permutation (insert_sorted before x l) (x :: l).
Proof.
  induction l as [|y l IH]; simpl; [apply Permutation_refl|].
  destruct (before x y); [apply Permutation_refl|].
  eapply perm_trans; [apply perm_skip, IH|apply perm_swap].
Qed.

Lemma sort_by_perm (l : list A) : Permutation (sort_by before l) l.
Proof.
  induction l as [|x l IH]; simpl; [constructor|].
  eapply perm_trans; [apply insert_sorted_perm|now apply perm_skip].
Qed.

Lemma insert_sorted_sorted (x : A) (l : list A) :
  StronglySorted R l -> StronglySorted R (insert_sorted before x l).
Proof.
  induction l as [|y l IH]; simpl; intros H.
  - constructor; constructor.
  - inversion H as [|? ? Hs Hf]; subst.
    destruct (before x y) eqn:E.
    + constructor; [exact H|].
      constructor; [now apply before_R|].
      eapply Forall_impl; [|exact Hf]; intros z Hz.
      eapply R_trans; [apply before_R, E|exact Hz].
    + constructor; [now apply IH|].
      apply Forall_forall; intros z Hz.
      apply (Permutation_in _ (insert_sorted_perm x l)) in Hz.
      destruct Hz as [<-|Hz]; [now apply not_before_R|].
      rewrite Forall_forall in Hf; now apply Hf.
Qed.

Lemma sort_by_sorted (l : list A) : StronglySorted R (sort_by before l).
Proof.
  induction l as [|x l IH]; simpl; [constructor|now apply insert_sorted_sorted].
Qed.

Lemma sorted_app_order (l1 l2 : list A) :
  StronglySorted R (l1 ++ l2) ->
  forall x y, In x l1 -> In y l2 -> R x y.
Proof.
  induction l1 as [|z l1 IH]; simpl; intros H x y Hx Hy; [contradiction|].
  inversion H as [|? ? Hs Hf]; subst.
  destruct Hx as [<-|Hx]; [|now apply IH].
  rewrite Forall_forall in Hf; apply Hf, in_or_app; now right.
Qed.

(** The first [n] of a sorted list stand before the rest. *)
Lemma sort_by_front_first (n : nat) (l : list A) (x y : A) :
  In x (firstn n (sort_by before l)) ->
  In y (skipn n (sort_by before l)) ->
  R x y.
Proof.
  apply sorted_app_order; rewrite firstn_skipn; apply sort_by_sorted.
Qed.

End SortingFacts.

(** Lists without two elements of the same key. *)
Section Keyed.
Context {A : Type}.
Variable key : A -> jsstring.

Definition drop_keys (ks : list jsstring) (l : list A) : list A :=
  filter (fun x => negb (existsb (str_eqb (key x)) ks)) l.

Lemma in_drop_keys (ks : list jsstring) (l : list A) (x : A) :
  In x (drop_keys ks l) <-> In x l /\ ~ In (key x) ks.
Proof.
  unfold drop_keys; rewrite filter_In, negb_true_iff.
  split; intros [H1 H2]; split; auto.
  - intros Hin; assert (E : existsb (str_eqb (key x)) ks = true);
      [|congruence].
    apply existsb_exists; exists (key x); split; [auto|apply str_eqb_refl].
  - destruct (existsb (str_eqb (key x)) ks) eqn:E; [|reflexivity].
    apply existsb_exists in E as (k & Hk & Ek).
    apply str_eqb_eq in Ek; subst; contradiction.
Qed.

Lemma drop_keys_nil (l : list A) : drop_keys [] l = l.
Proof.
  unfold drop_keys; induction l as [|x l IH]; simpl; [reflexivity|].
  f_equal; exact IH.
Qed.

Lemma drop_keys_cons (k : jsstring) (ks : list jsstring) (l : list A) :
  drop_keys ks (filter (fun x => negb (str_eqb (key x) k)) l) = drop_keys (k :: ks) l.
Proof.
  unfold drop_keys; induction l as [|x l IH]; simpl; [reflexivity|].
  destruct (str_eqb (key x) k); simpl; [exact IH|].
  destruct (existsb (str_eqb (key x)) ks); simpl; [exact IH|now rewrite IH].
Qed.

Lemma nodup_keys_nodup (l : list A) : NoDup (map key l) -> NoDup l.
Proof.
  induction l as [|x l IH]; simpl; intros H; [constructor|].
  inversion H as [|? ? Hn Hd]; subst; constructor; [|auto].
  intros Hin; apply Hn, in_map, Hin.
Qed.

Lemma nodup_keys_in (l : list A) (x y : A) :
  NoDup (map key l) -> In x l -> In y l -> key x = key y -> x = y.
Proof.
  induction l as [|z l IH]; simpl; intros H Hx Hy E; [contradiction|].
  inversion H as [|? ? Hn Hd]; subst.
  destruct Hx as [<-|Hx], Hy as [<-|Hy]; auto.
  - exfalso; apply Hn; rewrite E; now apply in_map.
  - exfalso; apply Hn; rewrite <- E; now apply in_map.
Qed.

(** After the keys of the tail are dropped, the front is what is left. *)
Lemma drop_tail_keys (n : nat) (l s : list A) (x : A) :
  NoDup (map key l) -> Permutation s l ->
  (In x (drop_keys (map key (skipn n s)) l) <-> In x (firstn n s)).
Proof.
  intros Hnd Hp.
  assert (Hs : NoDup (map key s))
    by (eapply Permutation_NoDup; [apply Permutation_sym, Permutation_map, Hp|exact Hnd]).
  rewrite in_drop_keys; split.
  - intros [Hin Hk].
    apply (Permutation_in _ (Permutation_sym Hp)) in Hin.
    rewrite <- (firstn_skipn n s) in Hin; apply in_app_or in Hin as [H|H]; [exact H|].
    exfalso; apply Hk; now apply in_map.
  - intros Hin; split.
    + apply (Permutation_in _ Hp); rewrite <- (firstn_skipn n s).
      apply in_or_app; now left.
    + intros Hk; apply in_map_iff in Hk as (y & Ey & Hy).
      assert (y = x).
      { apply (nodup_keys_in s); auto.
        - rewrite <- (firstn_skipn n s); apply in_or_app; now right.
        - rewrite <- (firstn_skipn n s); apply in_or_app; now left. }
      subst y.
      rewrite <- (firstn_skipn n s) in Hs.
      apply nodup_keys_nodup in Hs.
      apply NoDup_app_remove_l in Hs as Hs2.
      clear Hs2; revert Hin Hy Hs; generalize (firstn n s), (skipn n s).
      intros l1 l2 H1 H2 Hnd'; induction l1 as [|z l1 IH]; [contradiction|].
      simpl in Hnd'; inversion Hnd' as [|? ? Hz Hr]; subst.
      destruct H1 as [->|H1]; [|auto].
      apply Hz, in_or_app; now right.
Qed.

Lemma same_members_length (l1 l2 : list A) :
  NoDup l1 -> NoDup l2 -> (forall x, In x l1 <-> In x l2) ->
  List.length l1 = List.length l2.
Proof.
  intros H1 H2 H; apply Permutation_length, NoDup_Permutation; auto.
Qed.

End Keyed.

(** ** The clean-up of the object store *)

Lemma firstn_in_mono {A : Type} (n m : nat) (l : list A) (x : A) :
  n <= m -> In x (firstn n l) -> In x (firstn m l).
Proof.
  revert m l; induction n as [|n IH]; intros m l Hle; simpl; [contradiction|].
  destruct m as [|m]; [lia|].
  destruct l as [|y l]; simpl; [auto|].
  intros [->|H]; [now left|right; apply IH; [lia|exact H]].
Qed.

Lemma in_firstn_in {A : Type} (n : nat) (l : list A) (x : A) :
  In x (firstn n l) -> In x l.
Proof. intros H; rewrite <- (firstn_skipn n l); apply in_or_app; now left. Qed.

Lemma NoDup_firstn_of {A : Type} (n : nat) (l : list A) :
  NoDup l -> NoDup (firstn n l).
Proof.
  intros H; rewrite <- (firstn_skipn n l) in H.
  now apply NoDup_app_remove_r in H.
Qed.

Lemma in_firstn_or_skipn {A : Type} (n : nat) (l : list A) (x : A) :
  In x l -> In x (firstn n l) \/ In x (skipn n l).
Proof. intros H; rewrite <- (firstn_skipn n l) in H; now apply in_app_or in H. Qed.

Lemma forEach_idb_delete (l : list CacheRecord) (w : World) :
  idb (snd (forEach l (fun entry => idb_delete (cacheKey entry)) w))
  = drop_keys cacheKey (map cacheKey l) (idb w)
  /\ localStorage (snd (forEach l (fun entry => idb_delete (cacheKey entry)) w))
     = localStorage w.
Proof.
  revert w; induction l as [|x l IH]; intros w; simpl forEach.
  - simpl; now rewrite drop_keys_nil.
  - rewrite bind_run; destruct (IH (snd (idb_delete (cacheKey x) w))) as [-> ->].
    split; [|reflexivity].
    unfold idb_delete, emit, bind; simpl.
    apply (drop_keys_cons cacheKey).
Qed.

Lemma removeOldIndexedDBEntries_idb (entries : list CacheRecord) (w : World) :
  idb (snd (removeOldIndexedDBEntries entries w))
  = drop_keys cacheKey
      (if (MAX_INDEXEDDB_SIZE <? totalSize entries)%Z
       then map cacheKey (skipn MAX_INDEXEDDB_ENTRIES_WHEN_LARGE entries) else [])
      (drop_keys cacheKey (map cacheKey (skipn MAX_INDEXEDDB_ENTRIES entries)) (idb w))
  /\ localStorage (snd (removeOldIndexedDBEntries entries w)) = localStorage w.
Proof.
  unfold removeOldIndexedDBEntries.
  destruct (Nat.eqb (List.length entries) 0) eqn:E0.
  - apply Nat.eqb_eq, length_zero_iff_nil in E0; subst; simpl.
    rewrite ?skipn_nil; simpl; rewrite ?drop_keys_nil; auto.
  - rewrite bind_run.
    set (w1 := snd ((if Nat.ltb MAX_INDEXEDDB_ENTRIES (List.length entries)
                     then forEach (skipn MAX_INDEXEDDB_ENTRIES entries)
                                  (fun entry => idb_delete (cacheKey entry))
                     else ret tt) w)).
    assert (H1 : idb w1 = drop_keys cacheKey
                            (map cacheKey (skipn MAX_INDEXEDDB_ENTRIES entries)) (idb w)
                 /\ localStorage w1 = localStorage w).
    { unfold w1; destruct (Nat.ltb _ _) eqn:E; [apply forEach_idb_delete|].
      apply Nat.ltb_ge in E; rewrite skipn_all2 by exact E; simpl.
      now rewrite drop_keys_nil. }
    destruct H1 as [H1 H1'].
    destruct (Z.ltb MAX_INDEXEDDB_SIZE (totalSize entries)); cbn [andb].
    + destruct (Nat.ltb MAX_INDEXEDDB_ENTRIES_WHEN_LARGE (List.length entries)) eqn:E.
      * destruct (forEach_idb_delete (skipn MAX_INDEXEDDB_ENTRIES_WHEN_LARGE entries) w1)
          as [-> ->]; now rewrite H1, H1'.
      * apply Nat.ltb_ge in E; rewrite (skipn_all2 entries E); simpl.
        now rewrite drop_keys_nil.
    + simpl; now rewrite drop_keys_nil.
Qed.

Lemma newer_first_true (a b : CacheRecord) :
  newer_first a b = true -> (timestamp b <= timestamp a)%Z.
Proof.
  unfold newer_first; intros H; apply orb_true_iff in H as [H|H].
  - apply Z.ltb_lt in H; lia.
  - apply andb_true_iff in H as [H _]; apply Z.eqb_eq in H; lia.
Qed.

Lemma newer_first_false (a b : CacheRecord) :
  newer_first a b = false -> (timestamp a <= timestamp b)%Z.
Proof.
  unfold newer_first; intros H; apply orb_false_iff in H as [H _].
  apply Z.ltb_ge in H; lia.
Qed.

(** What a clean-up does when it gets the handle and the cursor request
    succeeds. *)
Lemma structured_sweep_run (w : World) :
  obtains_handle w = true ->
  hd IdbFine (idb_script w) = IdbFine ->
  exists w2,
    clearOldCacheEntries w = removeOldIndexedDBEntries (sort_by newer_first (idb w)) w2
    /\ idb w2 = idb w /\ localStorage w2 = localStorage w.
Proof.
  intros Hdb Hf.
  destruct (getConversationCacheDB_frame w) as (Fi & Fl & Fs & _ & _ & _).
  unfold clearOldCacheEntries; rewrite bind_run; fold (obtains_handle w); rewrite Hdb.
  set (w1 := snd (getConversationCacheDB w)) in *.
  unfold clearOldIndexedDBEntries, idb_cursor_prev, next_idb_fault, emit, bind, ret; simpl.
  rewrite Fs; destruct (idb_script w) as [|[|] rest]; simpl in *; try discriminate;
    rewrite Fi; eexists; split; try reflexivity; simpl; auto.
Qed.

(** C7.  When the clean-up gets the handle, its cursor request succeeds and
    the store holds one record per key, the records left are the first 50
    in cursor order (newest first), or the first 30 when the serialised
    records are together longer than 500 MiB; every record left is at least
    as new as every record removed.  Of 60 records within the size limit,
    50 are left; above the size limit at most 30 are. *)
Theorem C7_structured_sweep (w : World) :
  obtains_handle w = true ->
  hd IdbFine (idb_script w) = IdbFine ->
  NoDup (map cacheKey (idb w)) ->
  let entries := sort_by newer_first (idb w) in
  let w' := snd (clearOldCacheEntries w) in
  let kept := if (MAX_INDEXEDDB_SIZE <? totalSize entries)%Z
              then MAX_INDEXEDDB_ENTRIES_WHEN_LARGE else MAX_INDEXEDDB_ENTRIES in
  (forall r, In r (idb w') <-> In r (firstn kept entries))
  /\ List.length (idb w') = Nat.min kept (List.length (idb w))
  /\ (forall r r', In r (idb w') -> In r' (idb w) -> ~ In r' (idb w') ->
                   (timestamp r' <= timestamp r)%Z)
  /\ (List.length (idb w) = 60 -> (totalSize entries <= MAX_INDEXEDDB_SIZE)%Z ->
      List.length (idb w') = 50)
  /\ ((MAX_INDEXEDDB_SIZE < totalSize entries)%Z -> List.length (idb w') <= 30)
  /\ localStorage w' = localStorage w.
Proof.
  intros Hdb Hf Hnd entries w' kept.
  destruct (structured_sweep_run w Hdb Hf) as (w2 & Hrun & Hi & Hl).
  fold entries in Hrun.
  destruct (removeOldIndexedDBEntries_idb entries w2) as [Hidb Hls].
  rewrite <- Hrun in Hidb, Hls; fold w' in Hidb, Hls; rewrite Hi in Hidb.
  assert (Hp : Permutation entries (idb w)) by apply sort_by_perm.
  assert (Hmem : forall r, In r (idb w') <-> In r (firstn kept entries)).
  { intros r; rewrite Hidb; unfold kept.
    destruct (Z.ltb MAX_INDEXEDDB_SIZE (totalSize entries)).
    - rewrite in_drop_keys, (drop_tail_keys cacheKey MAX_INDEXEDDB_ENTRIES _ _ r Hnd Hp).
      rewrite <- (drop_tail_keys cacheKey MAX_INDEXEDDB_ENTRIES_WHEN_LARGE _ _ r Hnd Hp).
      rewrite in_drop_keys; split.
      + intros [H1 H2]; split; [|exact H2].
        apply (Permutation_in _ Hp); eapply in_firstn_in; exact H1.
      + intros [H1 H2]; split; [|exact H2].
        apply (firstn_in_mono MAX_INDEXEDDB_ENTRIES_WHEN_LARGE);
          [unfold MAX_INDEXEDDB_ENTRIES_WHEN_LARGE, MAX_INDEXEDDB_ENTRIES; lia|].
        apply (drop_tail_keys cacheKey MAX_INDEXEDDB_ENTRIES_WHEN_LARGE _ _ r Hnd Hp).
        apply in_drop_keys; auto.
    - rewrite drop_keys_nil.
      apply (drop_tail_keys cacheKey MAX_INDEXEDDB_ENTRIES _ _ r Hnd Hp). }
  assert (Hlen : List.length (idb w') = Nat.min kept (List.length (idb w))).
  { rewrite <- (Permutation_length Hp), <- length_firstn.
    apply same_members_length; [| |exact Hmem].
    - rewrite Hidb; unfold drop_keys; do 2 apply NoDup_filter.
      now apply (nodup_keys_nodup cacheKey).
    - apply (NoDup_firstn_of kept).
      eapply Permutation_NoDup; [apply Permutation_sym, Hp|].
      now apply (nodup_keys_nodup cacheKey). }
  split; [exact Hmem|split; [exact Hlen|split; [|split; [|split]]]].
  - intros r r' Hr Hr' Hnot.
    apply Hmem in Hr.
    apply (Permutation_in _ (Permutation_sym Hp)) in Hr'.
    destruct (in_firstn_or_skipn kept _ _ Hr') as [H|H];
      [exfalso; now apply Hnot, Hmem|].
    exact (sort_by_front_first newer_first (fun a b => (timestamp b <= timestamp a)%Z)
             newer_first_true newer_first_false
             (fun x y z Hxy Hyz => Z.le_trans _ _ _ Hyz Hxy)
             kept (idb w) r r' Hr H).
  - intros H60 Hsmall; rewrite Hlen, H60; unfold kept.
    apply Z.ltb_ge in Hsmall; rewrite Hsmall; reflexivity.
  - intros Hbig; rewrite Hlen; unfold kept.
    apply Z.ltb_lt in Hbig; rewrite Hbig.
    unfold MAX_INDEXEDDB_ENTRIES_WHEN_LARGE; lia.
  - now rewrite Hls.
Qed.

(** ** The clean-up of localStorage *)

(** The write time the clean-up reads off an entry. *)
Definition written_at (ls : list (jsstring * Text)) (k : jsstring) : Z :=
  entry_timestamp (ls_find k ls).

Lemma readEntries_run (cacheKeys : list jsstring) (w : World) :
  fst (readEntries cacheKeys w)
  = map (fun k => (k, written_at (localStorage w) k)) cacheKeys
  /\ localStorage (snd (readEntries cacheKeys w)) = localStorage w
  /\ idb (snd (readEntries cacheKeys w)) = idb w.
Proof.
  revert w; induction cacheKeys as [|k l IH]; intros w; simpl; [auto|].
  rewrite !bind_run.
  set (w1 := snd (ls_getItem k w)).
  assert (E : fst (ls_getItem k w) = ls_find k (localStorage w)
              /\ localStorage w1 = localStorage w /\ idb w1 = idb w)
    by (unfold w1, ls_getItem, emit, bind; simpl; auto).
  destruct E as (-> & E2 & E3).
  destruct (IH w1) as (H1 & H2 & H3); simpl.
  rewrite H1, H2, H3, E2, E3; auto.
Qed.

Lemma forEach_ls_removeItem (l : list (jsstring * Z)) (w : World) :
  localStorage (snd (forEach l (fun entry => ls_removeItem (fst entry)) w))
  = drop_keys fst (map fst l) (localStorage w)
  /\ idb (snd (forEach l (fun entry => ls_removeItem (fst entry)) w)) = idb w.
Proof.
  revert w; induction l as [|x l IH]; intros w; simpl forEach.
  - simpl; now rewrite drop_keys_nil.
  - rewrite bind_run; destruct (IH (snd (ls_removeItem (fst x) w))) as [-> ->].
    split; [|reflexivity].
    unfold ls_removeItem, emit, bind; simpl.
    apply (drop_keys_cons fst).
Qed.

(** The entries of the cache, newest first, as the clean-up sorts them. *)
Definition sorted_entries (ls : list (jsstring * Text)) : list (jsstring * Z) :=
  sort_by newest_first
          (map (fun k => (k, written_at ls k)) (filter is_cache_key (map fst ls))).

Lemma clearOldLocalStorageEntries_run (w : World) :
  localStorage (snd (clearOldLocalStorageEntries w))
  = drop_keys fst (map fst (skipn MAX_LOCALSTORAGE_ENTRIES (sorted_entries (localStorage w))))
              (localStorage w)
  /\ idb (snd (clearOldLocalStorageEntries w)) = idb w.
Proof.
  unfold clearOldLocalStorageEntries, sorted_entries.
  rewrite bind_run.
  set (w1 := snd (ls_keys w)).
  assert (E : fst (ls_keys w) = map fst (localStorage w)
              /\ localStorage w1 = localStorage w /\ idb w1 = idb w)
    by (unfold w1, ls_keys, emit, bind; simpl; auto).
  destruct E as (-> & E2 & E3).
  set (cacheKeys := filter is_cache_key (map fst (localStorage w))).
  unfold removeOldLocalStorageEntries.
  destruct (Nat.eqb (List.length cacheKeys) 0) eqn:E0.
  - apply Nat.eqb_eq, length_zero_iff_nil in E0; rewrite E0; simpl.
    now rewrite drop_keys_nil.
  - rewrite bind_run; cbv zeta.
    destruct (readEntries_run cacheKeys w1) as (-> & R2 & R3).
    rewrite E2.
    set (sorted := sort_by newest_first _).
    destruct (Nat.ltb MAX_LOCALSTORAGE_ENTRIES (List.length sorted)) eqn:E.
    + destruct (forEach_ls_removeItem (skipn MAX_LOCALSTORAGE_ENTRIES sorted)
                                      (snd (readEntries cacheKeys w1))) as [-> ->].
      now rewrite R2, R3, E2, E3.
    + apply Nat.ltb_ge in E; rewrite (skipn_all2 sorted E); simpl.
      now rewrite drop_keys_nil, R2, R3, E2, E3.
Qed.

Lemma newest_first_true (a b : jsstring * Z) :
  newest_first a b = true -> (snd b <= snd a)%Z.
Proof. unfold newest_first; intros H; now apply Z.leb_le in H. Qed.

Lemma newest_first_false (a b : jsstring * Z) :
  newest_first a b = false -> (snd a <= snd b)%Z.
Proof. unfold newest_first; intros H; apply Z.leb_gt in H; lia. Qed.

Lemma sorted_entries_keys (ls : list (jsstring * Text)) :
  Permutation (map fst (sorted_entries ls)) (filter is_cache_key (map fst ls)).
Proof.
  unfold sorted_entries.
  eapply perm_trans; [apply Permutation_map, sort_by_perm|].
  rewrite map_map; simpl; rewrite map_id; apply Permutation_refl.
Qed.

Lemma sorted_entries_written (ls : list (jsstring * Text)) (k : jsstring) (t : Z) :
  In (k, t) (sorted_entries ls) -> t = written_at ls k.
Proof.
  unfold sorted_entries; intros H.
  apply (Permutation_in _ (sort_by_perm newest_first _)) in H.
  apply in_map_iff in H as (k' & E & _); now inversion E.
Qed.

(** Keeping some of the entries keeps their keys distinct. *)
Lemma distinct_keys_kept {A : Type} (keep : A -> bool) (key : A -> jsstring)
      (entries : list A) (Hnd : NoDup (map key entries)) :
  NoDup (map key (filter keep entries)).
Proof.
  induction entries as [|x l IH]; simpl in *; [constructor|].
  inversion Hnd as [|? ? Hn Hd]; subst.
  destruct (keep x); simpl; [|auto].
  constructor; [|auto].
  intros Hin; apply Hn.
  apply in_map_iff in Hin as (y & E & Hy); apply filter_In in Hy as [Hy _].
  rewrite <- E; now apply in_map.
Qed.

Lemma NoDup_app_disjoint {A : Type} (l1 l2 : list A) (x : A) :
  NoDup (l1 ++ l2) -> In x l1 -> ~ In x l2.
Proof.
  induction l1 as [|y l1 IH]; simpl; intros H Hx; [contradiction|].
  inversion H as [|? ? Hn Hd]; subst.
  destruct Hx as [->|Hx]; [|auto].
  intros H2; apply Hn, in_or_app; now right.
Qed.

Lemma startsWith_prefix (p k : jsstring) :
  startsWith p k = true <-> exists rest, k = p ++ rest.
Proof.
  revert k; induction p as [|x p IH]; intros k; simpl.
  - split; [intros _; now exists k|reflexivity].
  - destruct k as [|y k]; [split; [discriminate|intros [rest E]; discriminate]|].
    rewrite andb_true_iff, N.eqb_eq, IH; split.
    + intros [-> [rest ->]]; now exists rest.
    + intros [rest E]; injection E as -> ->; split; [reflexivity|now exists rest].
Qed.

Lemma ls_find_of_entry (l : list (jsstring * Text)) (k : jsstring) (v : Text) :
  NoDup (map fst l) -> In (k, v) l -> ls_find k l = Some v.
Proof.
  induction l as [|[k0 v0] l IH]; simpl; intros Hnd Hin; [contradiction|].
  inversion Hnd as [|? ? Hn Hd]; subst.
  destruct Hin as [E|Hin].
  - injection E as -> ->; now rewrite str_eqb_refl.
  - destruct (str_eqb k0 k) eqn:E; [|auto].
    apply str_eqb_eq in E; subst k0.
    elim Hn; apply (in_map fst _ (k, v)), Hin.
Qed.

Section FlatSweep.
Variable ls : list (jsstring * Text).
Hypothesis ls_nodup : NoDup (map fst ls).

Let K : list jsstring := map fst (sorted_entries ls).
Let ls' : list (jsstring * Text) :=
  drop_keys fst (skipn MAX_LOCALSTORAGE_ENTRIES K) ls.

Lemma K_cache_keys (k : jsstring) :
  In k K <-> In k (map fst ls) /\ is_cache_key k = true.
Proof.
  unfold K; rewrite <- filter_In; split; apply Permutation_in;
    [|apply Permutation_sym]; apply sorted_entries_keys.
Qed.

Lemma K_nodup : NoDup K.
Proof.
  eapply Permutation_NoDup; [apply Permutation_sym, sorted_entries_keys|].
  now apply NoDup_filter.
Qed.

Lemma kept_or_removed (k : jsstring) :
  In k (map fst ls) ->
  (~ In k (skipn MAX_LOCALSTORAGE_ENTRIES K)
   <-> is_cache_key k = false \/ In k (firstn MAX_LOCALSTORAGE_ENTRIES K)).
Proof.
  intros Hk; split.
  - intros Hn; destruct (is_cache_key k) eqn:E; [right|now left].
    assert (HK : In k K) by (apply K_cache_keys; auto).
    destruct (in_firstn_or_skipn MAX_LOCALSTORAGE_ENTRIES _ _ HK); [auto|contradiction].
  - intros [E|Hf] Hs.
    + assert (HK : In k K)
        by (rewrite <- (firstn_skipn MAX_LOCALSTORAGE_ENTRIES K); apply in_or_app; now right).
      apply K_cache_keys in HK as [_ HK]; congruence.
    + revert Hs; apply (NoDup_app_disjoint (firstn MAX_LOCALSTORAGE_ENTRIES K)); auto.
      rewrite firstn_skipn; apply K_nodup.
Qed.

Lemma in_after_sweep (k : jsstring) (v : Text) :
  In (k, v) ls'
  <-> In (k, v) ls
      /\ (is_cache_key k = false \/ In k (firstn MAX_LOCALSTORAGE_ENTRIES K)).
Proof.
  unfold ls'; rewrite in_drop_keys; simpl.
  split; intros [H1 H2]; split; auto;
    apply (kept_or_removed k); auto; apply (in_map fst _ _ H1).
Qed.

Lemma cache_keys_after_sweep (k : jsstring) :
  In k (filter is_cache_key (map fst ls')) <-> In k (firstn MAX_LOCALSTORAGE_ENTRIES K).
Proof.
  rewrite filter_In; split.
  - intros [Hin Hc]; apply in_map_iff in Hin as ([k' v] & E & Hin); simpl in E; subst k'.
    apply in_after_sweep in Hin as [_ [H|H]]; [congruence|exact H].
  - intros Hf.
    assert (HK : In k K) by (eapply in_firstn_in; exact Hf).
    apply K_cache_keys in HK as [Hin Hc]; split; [|exact Hc].
    apply in_map_iff in Hin as ([k' v] & E & Hin); simpl in E; subst k'.
    apply (in_map fst _ (k, v)), in_after_sweep; auto.
Qed.

Lemma count_after_sweep :
  List.length (filter is_cache_key (map fst ls'))
  = Nat.min MAX_LOCALSTORAGE_ENTRIES (List.length (filter is_cache_key (map fst ls))).
Proof.
  rewrite <- (Permutation_length (sorted_entries_keys ls)); fold K.
  rewrite <- length_firstn.
  apply same_members_length.
  - apply NoDup_filter; unfold ls', drop_keys; now apply distinct_keys_kept.
  - apply NoDup_firstn_of, K_nodup.
  - apply cache_keys_after_sweep.
Qed.

Lemma newest_kept (k k' : jsstring) :
  In k (filter is_cache_key (map fst ls')) ->
  In k' (filter is_cache_key (map fst ls)) ->
  ~ In k' (map fst ls') ->
  (written_at ls k' <= written_at ls k)%Z.
Proof.
  intros Hk Hk' Hgone.
  apply cache_keys_after_sweep in Hk.
  assert (HK' : In k' (skipn MAX_LOCALSTORAGE_ENTRIES K)).
  { apply filter_In in Hk'.
    apply K_cache_keys in Hk'.
    destruct (in_firstn_or_skipn MAX_LOCALSTORAGE_ENTRIES _ _ Hk') as [H|H]; [|exact H].
    apply cache_keys_after_sweep, filter_In in H as [H _]; contradiction. }
  unfold K in Hk, HK'; rewrite firstn_map in Hk; rewrite skipn_map in HK'.
  apply in_map_iff in Hk as ([k1 t] & E & Hk); simpl in E; subst k1.
  apply in_map_iff in HK' as ([k1 t'] & E & HK'); simpl in E; subst k1.
  rewrite <- (sorted_entries_written ls k t) by (eapply in_firstn_in; exact Hk).
  assert (In (k', t') (sorted_entries ls))
    by (rewrite <- (firstn_skipn MAX_LOCALSTORAGE_ENTRIES); apply in_or_app; now right).
  rewrite <- (sorted_entries_written ls k' t') by assumption.
  exact (sort_by_front_first newest_first (fun a b => (snd b <= snd a)%Z)
           newest_first_true newest_first_false
           (fun x y z Hxy Hyz => Z.le_trans _ _ _ Hyz Hxy)
           MAX_LOCALSTORAGE_ENTRIES _ (k, t) (k', t') Hk HK').
Qed.

(** The same, with the time stamp read off the stored text. *)
Lemma newest_kept_entries (k k' : jsstring) (v v' : Text) :
  In (k, v) ls' -> is_cache_key k = true ->
  In (k', v') ls -> is_cache_key k' = true ->
  ~ In (k', v') ls' ->
  (entry_timestamp (Some v') <= entry_timestamp (Some v))%Z.
Proof.
  intros Hk Hc Hk' Hc' Hgone.
  assert (Hin : In (k, v) ls) by (apply in_after_sweep in Hk; tauto).
  rewrite <- (ls_find_of_entry ls k v ls_nodup Hin).
  rewrite <- (ls_find_of_entry ls k' v' ls_nodup Hk').
  apply newest_kept.
  - apply filter_In; split; [apply (in_map fst _ (k, v)), Hk|exact Hc].
  - apply filter_In; split; [apply (in_map fst _ (k', v')), Hk'|exact Hc'].
  - intros H; apply in_map_iff in H as ([k0 v0] & E & H); simpl in E; subst k0.
    assert (H0 : In (k', v0) ls) by (apply in_after_sweep in H; tauto).
    apply (ls_find_of_entry ls k' v0 ls_nodup) in H0.
    rewrite (ls_find_of_entry ls k' v' ls_nodup Hk') in H0.
    injection H0 as ->; contradiction.
Qed.

End FlatSweep.

(** C8.  The clean-up of localStorage takes for entries of the cache the
    entries whose key starts with the prefix of the cache or with the older
    prefix conversations_cache_.  It adds and alters nothing, and leaves the
    entries under other keys where they are.  When the keys are distinct,
    min(5, n) of n entries of the cache are left (5 of 8), and every entry
    left is at least as new as every entry removed, by the time stamp of
    the record the stored text parses to, a text that does not parse to a
    record counting as written at time 0.  This is the clean-up
    [clearOldCacheEntries] runs when it does not get the handle. *)
Theorem C8_flat_sweep (w : World) :
  NoDup (map fst (localStorage w)) ->
  let ls := localStorage w in
  let ls' := localStorage (snd (clearOldLocalStorageEntries w)) in
  let stamp := fun text : Text =>
                 match JSON_parse text with
                 | ParsedRecord r => timestamp r
                 | _ => 0%Z
                 end in
  (forall k, is_cache_key k = true
             <-> exists rest, k = js "admin_conversations_cache_" ++ rest
                              \/ k = js "conversations_cache_" ++ rest)
  /\ (forall k v, In (k, v) ls' -> In (k, v) ls)
  /\ (forall k v, In (k, v) ls -> is_cache_key k = false -> In (k, v) ls')
  /\ List.length (filter is_cache_key (map fst ls'))
     = Nat.min 5 (List.length (filter is_cache_key (map fst ls)))
  /\ (forall k v k' v',
        In (k, v) ls' -> is_cache_key k = true ->
        In (k', v') ls -> is_cache_key k' = true ->
        ~ In (k', v') ls' ->
        (stamp v' <= stamp v)%Z)
  /\ (List.length (filter is_cache_key (map fst ls)) = 8 ->
      List.length (filter is_cache_key (map fst ls')) = 5)
  /\ (obtains_handle w = false -> localStorage (snd (clearOldCacheEntries w)) = ls').
Proof.
  intros Hnd ls ls' stamp.
  destruct (clearOldLocalStorageEntries_run w) as [Hrun _].
  fold ls in Hrun; fold ls' in Hrun.
  rewrite <- skipn_map in Hrun.
  split; [|split; [|split; [|split; [|split; [|split]]]]].
  - intros k; unfold is_cache_key.
    rewrite orb_true_iff, !startsWith_prefix.
    split; [intros [[rest E]|[rest E]]|intros [rest [E|E]]];
      try (exists rest); auto; [left|right]; now exists rest.
  - intros k v; rewrite Hrun; intros H.
    now apply (in_after_sweep ls Hnd) in H as [H _].
  - intros k v H Hc; rewrite Hrun.
    apply (in_after_sweep ls Hnd); auto.
  - rewrite Hrun; now apply count_after_sweep.
  - intros k v k' v'; rewrite Hrun.
    apply (newest_kept_entries ls Hnd).
  - intros H8; rewrite Hrun, count_after_sweep, H8 by assumption; reflexivity.
  - intros Hdb.
    destruct (getConversationCacheDB_frame w) as (_ & Fl & _).
    unfold clearOldCacheEntries; rewrite bind_run; fold (obtains_handle w); rewrite Hdb.
    destruct (clearOldLocalStorageEntries_run (snd (getConversationCacheDB w))) as [-> _].
    now rewrite Fl, Hrun, <- skipn_map.
Qed.

(** ** The retry after a quota error *)


















End Theory.

(** * The theorems at sample inputs, and what the code does instead *)

Lemma distinct_NoDup (l : list jsstring) : distinct l = true -> NoDup l.
Proof.
  induction l as [|k l IH]; simpl; intros H; constructor.
  - apply andb_true_iff in H as [H _]; apply negb_true_iff in H.
    intros Hin.
    assert (E : existsb (str_eqb k) l = true); [|congruence].
    apply existsb_exists; exists k; split; [exact Hin|apply str_eqb_refl].
  - apply andb_true_iff in H as [_ H]; auto.
Qed.

(** C1: a store that falls back to localStorage while the handle is held
    reports success, and the lookup that follows reads the object store
    only, so it misses. *)
Lemma C1_counterexample :
  has_list_field (payload_of 2) = true
  /\ (sample_size (buildCacheData admin42 march5 (payload_of 2) 1000 1000)
      <= MAX_LOCALSTORAGE_ENTRY_SIZE)%Z
  /\ fst (cacheConversations admin42 march5 (payload_of 2) 1000 1000 world_put_fails)
     = Resolved true
  /\ fst (getCachedConversations admin42 march5 1000
            (snd (cacheConversations admin42 march5 (payload_of 2) 1000 1000
                    world_put_fails))) = Resolved None.
Proof. vm_compute; repeat split; discriminate. Qed.

Lemma C1_witness :
  fst (cacheConversations admin42 march5 (payload_of 2) 1000 1000 (fresh_world false))
  = Resolved true
  /\ fst (getCachedConversations admin42 march5 1060
            (snd (cacheConversations admin42 march5 (payload_of 2) 1000 1000
                    (fresh_world false)))) = Resolved (Some (payload_of 2)).
Proof.
  apply (@C1_round_trip sample_platform admin42 march5 (payload_of 2) 1000 1000 1060
                        (fresh_world false)).
  - repeat split.
  - reflexivity.
  - reflexivity.
  - reflexivity.
  - vm_compute; discriminate.
  - split; reflexivity.
  - reflexivity.
  - reflexivity.
  - vm_compute; discriminate.
Defined.

(** C2: a record whose payload is present but holds no list is a hit, and
    stays in the store. *)
Lemma C2_counterexample :
  has_list_field (data record_without_list) = false
  /\ fst (getCachedConversations admin42 march5 2000 (world_with_idb [record_without_list]))
     = Resolved (Some (data record_without_list))
  /\ idb (snd (getCachedConversations admin42 march5 2000
                 (world_with_idb [record_without_list])))
     = [record_without_list].
Proof. vm_compute; repeat split. Qed.

Lemma C2_witness :
  fst (getCachedConversations admin42 march5 2000 (world_with_idb [record_without_payload]))
  = Resolved None
  /\ purged (getConversationCacheKey admin42 march5)
            (snd (getCachedConversations admin42 march5 2000
                    (world_with_idb [record_without_payload]))).
Proof.
  apply (proj1 (proj1 (@C2_payload_presence sample_platform admin42 march5 2000
                         (world_with_idb [record_without_payload]) record_without_payload)
                      eq_refl eq_refl eq_refl)).
  - reflexivity.
  - intros H; vm_compute in H; discriminate.
Defined.

(** C3: with the handle held and nothing in the object store, the lookup
    reports a miss although localStorage holds a fresh record under the key;
    localStorage is not read. *)
Lemma C3_counterexample :
  obtains_handle world_only_flat_has_it = true
  /\ fst (getCachedFromLocalStorage key42 2000 world_only_flat_has_it)
     = Resolved (Some (payload_of 2))
  /\ fst (getCachedConversations admin42 march5 2000 world_only_flat_has_it) = Resolved None
  /\ trace (snd (getCachedConversations admin42 march5 2000 world_only_flat_has_it))
     = [IdbGet key42].
Proof. vm_compute; repeat split. Qed.

Lemma C3_witness :
  forallb (fun e => negb (is_getItem e))
          (events_since world_only_flat_has_it
             (snd (getCachedConversations admin42 march5 2000 world_only_flat_has_it))) = true
  /\ (find (has_key (getConversationCacheKey admin42 march5)) (idb world_only_flat_has_it) = None
      \/ hd IdbFine (idb_script world_only_flat_has_it) = IdbRequestError ->
      fst (getCachedConversations admin42 march5 2000 world_only_flat_has_it)
      = Resolved None).
Proof.
  exact (proj2 (@C3_flat_tier_only_without_handle sample_platform admin42 march5 2000
                  world_only_flat_has_it) eq_refl).
Defined.



(** C5: the first open fails and the lookup reads localStorage; the next
    lookup opens the database again, gets the handle, and reads the object
    store. *)
Lemma C5_counterexample :
  obtains_handle world_open_fails_once = false
  /\ events_since (run_op (OpLookup admin42 march5 1000) world_open_fails_once)
                  (run_session [OpLookup admin42 march5 1000; OpLookup admin42 march5 1000]
                               world_open_fails_once)
     = [IdbOpen; IdbGet key42].
Proof. vm_compute; repeat split. Qed.

Lemma C5_witness :
  forallb (fun e => negb (is_structured e))
          (events_since (fresh_world false)
             (run_session [OpStore admin42 march5 (payload_of 2) 1000 1000;
                           OpLookup admin42 march5 2000; OpSweep; OpDelete key42]
                          (fresh_world false))) = true.
Proof.
  exact (proj1 (@C5_handle_and_unavailability sample_platform
                  [OpStore admin42 march5 (payload_of 2) 1000 1000;
                   OpLookup admin42 march5 2000; OpSweep; OpDelete key42]
                  (fresh_world false)) eq_refl).
Defined.

(** C6: the clock moves on by one millisecond between lines 228 and 235,
    and the record stored expires 24 hours after the first reading, that is
    one millisecond less than 24 hours after its time stamp. *)
Lemma C6_counterexample :
  fst (cacheConversations admin42 march5 (payload_of 2) 1000 1001 (fresh_world true))
  = Resolved true
  /\ map (fun r => (timestamp r, expiresAt r))
         (idb (snd (cacheConversations admin42 march5 (payload_of 2) 1000 1001
                      (fresh_world true))))
     = [(1001, 1001 + 24 * 60 * 60 * 1000 - 1)%Z].
Proof. vm_compute; repeat split. Qed.

Lemma C6_witness :
  fst (getCachedConversations admin42 march5 (1000 + 23 * 60 * MINUTE + 59 * MINUTE)
         (snd (cacheConversations admin42 march5 (payload_of 2) 1000 1000 (fresh_world true))))
  = Resolved (Some (payload_of 2))
  /\ fst (getCachedConversations admin42 march5 (1000 + 24 * 60 * MINUTE + 1 * MINUTE)
            (snd (cacheConversations admin42 march5 (payload_of 2) 1000 1000
                    (fresh_world true))))
     = Resolved None.
Proof.
  assert (H := @C6_expiry sample_platform admin42 march5 (payload_of 2) 1000 1000 0
                          (fresh_world true)).
  destruct H as (_ & _ & _ & _ & _ & _ & _ & H1 & H2 & _).
  - repeat split.
  - reflexivity.
  - reflexivity.
  - reflexivity.
  - vm_compute; discriminate.
  - split; reflexivity.
  - vm_compute; discriminate.
  - reflexivity.
  - reflexivity.
  - split; [exact H1|exact H2].
Defined.

Lemma C7_witness :
  List.length (idb (snd (clearOldCacheEntries (world_with_idb (records 60 1))))) = 50
  /\ List.length (idb (snd (clearOldCacheEntries (world_with_idb (records 40 20000))))) <= 30.
Proof.
  split.
  - refine (proj1 (proj2 (proj2 (proj2
             (@C7_structured_sweep sample_platform (world_with_idb (records 60 1))
                                   eq_refl eq_refl _)))) _ _).
    + apply distinct_NoDup; vm_compute; reflexivity.
    + vm_compute; reflexivity.
    + vm_compute; discriminate.
  - refine (proj1 (proj2 (proj2 (proj2 (proj2
             (@C7_structured_sweep sample_platform (world_with_idb (records 40 20000))
                                   eq_refl eq_refl _))))) _).
    + apply distinct_NoDup; vm_compute; reflexivity.
    + vm_compute; reflexivity.
Defined.

(** C8 for eight entries of the cache, written at the times 1000 to 1007,
    and one entry of another part of the page: the five written last are
    left, and so is the other entry. *)
Lemma C8_witness :
  let ls := localStorage world_flat_eight in
  let ls' := localStorage (snd (clearOldLocalStorageEntries world_flat_eight)) in
  let stamp := fun text =>
                 match @JSON_parse sample_platform text with
                 | ParsedRecord r => timestamp r
                 | _ => 0%Z
                 end in
  List.length (filter is_cache_key (map fst ls)) = 8
  /\ List.length (filter is_cache_key (map fst ls')) = 5
  /\ (forall k v k' v',
        In (k, v) ls' -> is_cache_key k = true ->
        In (k', v') ls -> is_cache_key k' = true ->
        ~ In (k', v') ls' ->
        (stamp v' <= stamp v)%Z)
  /\ (forall k v, In (k, v) ls -> is_cache_key k = false -> In (k, v) ls')
  /\ map (fun entry => (fst entry, stamp (snd entry))) ls'
     = [(js "theme", 0%Z);
        (js "admin_conversations_cache_42_day3", 1003%Z);
        (js "admin_conversations_cache_42_day4", 1004%Z);
        (js "admin_conversations_cache_42_day5", 1005%Z);
        (js "admin_conversations_cache_42_day6", 1006%Z);
        (js "admin_conversations_cache_42_day7", 1007%Z)].
Proof.
  intros ls ls' stamp.
  assert (Hnd : NoDup (map fst (localStorage world_flat_eight)))
    by (apply distinct_NoDup; vm_compute; reflexivity).
  destruct (@C8_flat_sweep sample_platform world_flat_eight Hnd)
    as (_ & _ & Hother & _ & Hnew & H8 & _).
  assert (E8 : List.length (filter is_cache_key (map fst ls)) = 8)
    by (vm_compute; reflexivity).
  split; [exact E8|].
  split; [exact (H8 E8)|].
  split; [exact Hnew|].
  split; [exact Hother|].
  vm_compute; reflexivity.
Defined.

(** C9: the write of a record that is too long and a write that fails for
    another reason end in the same result, [false]. *)
Lemma C9_counterexample :
  (MAX_LOCALSTORAGE_ENTRY_SIZE
   < sample_size (buildCacheData admin42 march5 (payload_of 2048) 1000 1000))%Z
  /\ fst (cacheToLocalStorage key42 (buildCacheData admin42 march5 (payload_of 2048) 1000 1000)
                              (fresh_world false))
     = fst (cacheToLocalStorage key42 (buildCacheData admin42 march5 (payload_of 2) 1000 1000)
                                (@mkWorld sample_platform false false [] [] [] []
                                          [LsOtherError] [])).
Proof. vm_compute; repeat split. Qed.

Lemma C9_witness :
  cacheToLocalStorage key42 (buildCacheData admin42 march5 (payload_of 2048) 1000 1000)
                      (fresh_world false)
  = (false, fresh_world false).
Proof.
  refine (proj1 (@C9_oversize_rejected sample_platform key42
                   (buildCacheData admin42 march5 (payload_of 2048) 1000 1000)
                   (fresh_world false) _)).
  vm_compute; reflexivity.
Defined.

(** * More of the cache *)

(** ** Keys *)

Lemma normalizedDate_timestamp (y rest : jsstring) :
  is_ymd y = true -> normalizedDate (JStr (y ++ char_T :: rest)) = y.
Proof.
  intros Hy; destruct (is_ymd_clean _ Hy) as [Hc Hn].
  unfold normalizedDate; rewrite truthy_JStr_app by exact Hn.
  unfold trim; rewrite trimStart_clean_app by assumption.
  rewrite trimEnd_clean_app by (assumption || reflexivity).
  now rewrite includes_T_app, split_T_0_clean_app.
Qed.

(** The time of day of a time stamp, and of a Date, does not reach the key:
    whatever follows the separator T is cut off. *)
Theorem key_ignores_time_of_day (adminId : JsVal) (y rest str : jsstring) :
  is_ymd y = true ->
  getConversationCacheKey adminId (JStr (y ++ char_T :: rest))
  = getConversationCacheKey adminId (JStr y)
  /\ getConversationCacheKey adminId (JDate (y ++ char_T :: rest) str)
     = getConversationCacheKey adminId (JStr y).
Proof.
  intros Hy; destruct (is_ymd_clean _ Hy) as [Hc Hn].
  unfold getConversationCacheKey.
  rewrite normalizedDate_timestamp, normalizedDate_ymd by assumption.
  split; [reflexivity|].
  unfold normalizedDate; simpl truthy; cbv iota.
  now rewrite split_T_0_clean_app.
Qed.

Lemma key_ignores_time_of_day_witness :
  getConversationCacheKey admin42 (JStr (js "2024-03-05" ++ char_T :: js "23:59:59+02:00"))
  = getConversationCacheKey admin42 (JStr (js "2024-03-05"))
  /\ getConversationCacheKey admin42
       (JDate (js "2024-03-05" ++ char_T :: js "23:59:59+02:00") (js "Tue Mar 05 2024"))
     = getConversationCacheKey admin42 (JStr (js "2024-03-05")).
Proof.
  exact (key_ignores_time_of_day admin42 (js "2024-03-05") (js "23:59:59+02:00")
                                 (js "Tue Mar 05 2024") eq_refl).
Defined.

Lemma is_ymd_length (y : jsstring) : is_ymd y = true -> List.length y = 10.
Proof.
  unfold is_ymd; do 10 (destruct y as [|? y]; try discriminate).
  destruct y; [reflexivity|discriminate].
Qed.

Lemma app_same_length_tail (a b x y : jsstring) :
  List.length x = List.length y -> a ++ x = b ++ y -> a = b /\ x = y.
Proof.
  intros Hl E.
  assert (Ha : List.length a = List.length b).
  { apply (f_equal (@List.length N)) in E; rewrite !length_app in E; lia. }
  revert b Ha E; induction a as [|c a IH]; intros [|d b] Ha E; simpl in *;
    try discriminate; [auto|].
  injection E as -> E; injection Ha as Ha.
  destruct (IH b Ha E) as [-> ->]; auto.
Qed.

(** Over the accepted date shapes the key tells the normalised identifier
    and the day apart: two keys are equal exactly when both parts are. *)
Theorem key_injective_on_valid_dates (a1 a2 d1 d2 : JsVal) :
  valid_date d1 = true -> valid_date d2 = true ->
  (getConversationCacheKey a1 d1 = getConversationCacheKey a2 d2
   <-> normalizedAdminId a1 = normalizedAdminId a2
       /\ normalizedDate d1 = normalizedDate d2).
Proof.
  intros H1 H2; unfold getConversationCacheKey; split.
  - intros E.
    apply normalizedDate_valid, is_ymd_length in H1.
    apply normalizedDate_valid, is_ymd_length in H2.
    apply app_same_length_tail in E as [Ea Ed]; [|simpl; congruence].
    split; [exact Ea|now injection Ed].
  - now intros [-> ->].
Qed.

Lemma key_injective_on_valid_dates_witness :
  getConversationCacheKey admin42 march5 = getConversationCacheKey (JNum 42) march5_noon
  <-> normalizedAdminId admin42 = normalizedAdminId (JNum 42)
      /\ normalizedDate march5 = normalizedDate march5_noon.
Proof.
  exact (key_injective_on_valid_dates admin42 (JNum 42) march5 march5_noon eq_refl eq_refl).
Defined.

(** Outside the accepted shapes keys collide: a date that contains the
    separator of the key is not told apart from an identifier that does. *)
Example key_collision :
  getConversationCacheKey (JStr (js "7_x")) (JStr (js "y"))
  = getConversationCacheKey (JStr (js "7")) (JStr (js "x_y")).
Proof. reflexivity. Qed.

(** A date that is neither a string nor a Date does not reach the key, and
    neither does a missing one: the key ends with the separator. *)
Theorem key_ignores_other_dates (adminId date : JsVal) :
  (forall s, date <> JStr s) -> (forall iso str, date <> JDate iso str) ->
  getConversationCacheKey adminId date = normalizedAdminId adminId ++ js "_".
Proof.
  intros Hs Hd; unfold getConversationCacheKey, normalizedDate.
  destruct date; try (destruct (truthy _); reflexivity).
  - now elim (Hs s).
  - now elim (Hd iso str).
Qed.

Lemma key_ignores_other_dates_witness :
  getConversationCacheKey admin42 (JNum 20240305) = normalizedAdminId admin42 ++ js "_".
Proof.
  apply key_ignores_other_dates; intros; discriminate.
Defined.

(** ** Store and lookup *)

Section CacheFacts.
Context {PF : Platform}.

Ltac run_tiers :=
  unfold cacheToLocalStorage, getCachedFromIndexedDB, getCachedFromLocalStorage,
    deleteCachedConversation, idb_get, idb_put, idb_delete, idb_cursor_prev,
    ls_getItem, ls_setItem, ls_removeItem, ls_keys,
    next_idb_fault, next_ls_fault, emit, gets, bind, ret.

(** A store without an identifier, a date or a payload is refused before
    anything is done: it returns [false] and makes no call. *)
Theorem store_refuses_missing_parameters (adminId date payload : JsVal)
        (now1 now2 : Z) (w : World) :
  truthy adminId = false \/ truthy date = false \/ truthy payload = false ->
  cacheConversations adminId date payload now1 now2 w = (Resolved false, w).
Proof.
  intros H; unfold cacheConversations.
  destruct H as [-> | [-> | ->]]; simpl; rewrite ?orb_true_r; reflexivity.
Qed.



End CacheFacts.


Lemma store_refuses_missing_parameters_witness :
  cacheConversations (JStr []) march5 (payload_of 2) 1000 1000 (fresh_world true)
  = (Resolved false, fresh_world true).
Proof.
  apply (@store_refuses_missing_parameters sample_platform); now left.
Defined.

Section TierFacts.
Context {PF : Platform}.

Opaque CONVERSATION_CACHE_PREFIX LEGACY_CACHE_PREFIX.

(** What a lookup makes of the record it finds, in the structured tier and
    in the flat tier. *)
Definition answer_of (structured : bool) (found : option CacheRecord) (now : Z)
  : Settled (option JsVal) :=
  match found with
  | Some r =>
      if expired r now then
        if is_time_value (expiresAt r) then Resolved None
        else if structured then Pending else Resolved None
      else if truthy (data r) then
        if is_time_value (timestamp r) then Resolved (Some (data r))
        else if structured then Pending else Resolved None
      else Resolved None
  | None => Resolved None
  end.

(** The record a lookup in localStorage reads under the key, if any. *)
Definition flat_record (k : jsstring) (ls : list (jsstring * Text)) : option CacheRecord :=
  match ls_find (CONVERSATION_CACHE_PREFIX ++ k) ls with
  | Some text =>
      if text_falsy text then None
      else match JSON_parse text with
           | ParsedRecord r => Some r
           | _ => None
           end
  | None => None
  end.

(** On a platform without faults the result of a lookup is read off the
    tier that the platform offers. *)
Lemma lookup_fault_free (adminId date : JsVal) (now : Z) (w : World) :
  fault_free w ->
  fst (getCachedConversations adminId date now w)
  = if INDEXEDDB_AVAILABLE w
    then answer_of true (find (has_key (getConversationCacheKey adminId date)) (idb w)) now
    else answer_of false (flat_record (getConversationCacheKey adminId date) (localStorage w))
                   now.
Proof.
  intros Hff.
  destruct (fault_free_db w Hff) as [Hdb (Ho & Hi & Hl)].
  destruct (getConversationCacheDB_frame w) as (Fi & Fl & Fs & Fls & Fa & Fh).
  rewrite getCachedConversations_run, Hdb.
  set (k := getConversationCacheKey adminId date).
  destruct (INDEXEDDB_AVAILABLE w) eqn:A.
  - rewrite <- Fi.
    destruct (find (has_key k) (idb (snd (getConversationCacheDB w)))) as [r|] eqn:F.
    + assert (Hf : hd IdbFine (idb_script (snd (getConversationCacheDB w))) = IdbFine)
        by now rewrite Hi.
      destruct (idb_lookup_found k now _ r (Fh Hdb) Hf F) as (Hit & Miss & Hang).
      unfold answer_of.
      destruct (expired r now) eqn:E.
      * destruct (is_time_value (expiresAt r)) eqn:V;
          [apply Miss; left; auto|apply Hang; left; auto].
      * destruct (truthy (data r)) eqn:T; [|apply Miss; right; auto].
        destruct (is_time_value (timestamp r)) eqn:V;
          [apply Hit; repeat split; auto|apply Hang; right; auto].
    + apply idb_lookup_miss; now left.
  - rewrite <- Fl; unfold flat_record.
    set (w1 := snd (getConversationCacheDB w)).
    destruct (ls_find (CONVERSATION_CACHE_PREFIX ++ k) (localStorage w1)) as [text|] eqn:F.
    + destruct (text_falsy text) eqn:N.
      * unfold getCachedFromLocalStorage, ls_getItem, emit, bind, ret; simpl.
        fold k; now rewrite F, N.
      * destruct (JSON_parse text) as [| |r] eqn:P.
        -- unfold getCachedFromLocalStorage, ls_getItem, emit, bind, ret; simpl.
           fold k; now rewrite F, N, P.
        -- unfold getCachedFromLocalStorage, ls_getItem, emit, bind, ret; simpl.
           fold k; now rewrite F, N, P.
        -- destruct (ls_lookup_found k now w1 text r F N P) as (Hit & Miss & Kept).
           unfold answer_of.
           destruct (expired r now) eqn:E.
           ++ destruct (is_time_value (expiresAt r)) eqn:V;
                [apply Miss; left; auto|apply Kept; left; auto].
           ++ destruct (truthy (data r)) eqn:T; [|apply Miss; right; auto].
              destruct (is_time_value (timestamp r)) eqn:V;
                [apply Hit; repeat split; auto|apply Kept; right; auto].
    + unfold getCachedFromLocalStorage, ls_getItem, emit, bind, ret; simpl.
      fold k; now rewrite F.
Qed.

(** What a store leaves behind on a platform without faults. *)
Lemma store_state_fault_free (a d p : JsVal) (now1 now2 : Z) (w : World) :
  fault_free w ->
  truthy a = true -> truthy d = true -> truthy p = true ->
  (text_length (JSON_stringify (buildCacheData a d p now1 now2))
   <= MAX_LOCALSTORAGE_ENTRY_SIZE)%Z ->
  is_time_value (expiresAt (buildCacheData a d p now1 now2)) = true ->
  fault_free (snd (cacheConversations a d p now1 now2 w))
  /\ INDEXEDDB_AVAILABLE (snd (cacheConversations a d p now1 now2 w))
     = INDEXEDDB_AVAILABLE w
  /\ (INDEXEDDB_AVAILABLE w = true ->
      idb (snd (cacheConversations a d p now1 now2 w))
      = filter (fun x => negb (has_key (getConversationCacheKey a d) x)) (idb w)
        ++ [buildCacheData a d p now1 now2])
  /\ (INDEXEDDB_AVAILABLE w = false ->
      localStorage (snd (cacheConversations a d p now1 now2 w))
      = ls_update (CONVERSATION_CACHE_PREFIX ++ getConversationCacheKey a d)
                  (JSON_stringify (buildCacheData a d p now1 now2)) (localStorage w)).
Proof.
  intros Hff Ha Hd Hp Hsize Hclock.
  destruct (fault_free_db w Hff) as [Hdb (Ho & Hi & Hl)].
  destruct (getConversationCacheDB_frame w) as (Fi & Fl & Fs & Fls & Fa & Fh).
  unfold cacheConversations; rewrite Ha, Hd, Hp; cbv zeta; cbn [negb orb].
  rewrite bind_run; fold (obtains_handle w); rewrite Hdb.
  set (r := buildCacheData a d p now1 now2) in *.
  set (w1 := snd (getConversationCacheDB w)) in *.
  unfold fault_free.
  destruct (INDEXEDDB_AVAILABLE w) eqn:A.
  - rewrite Hclock.
    unfold idb_put, next_idb_fault, emit, gets, bind, ret; simpl; rewrite Hi; simpl.
    rewrite Fi; repeat split; auto; discriminate.
  - rewrite bind_run; unfold cacheToLocalStorage; cbv zeta.
    apply Z.ltb_ge in Hsize; rewrite Hsize.
    unfold ls_setItem, ls_getItem, next_ls_fault, emit, bind, ret; simpl.
    rewrite Hl; simpl; rewrite Fl; repeat split; auto; discriminate.
Qed.

Lemma find_after_put_other (k : jsstring) (r : CacheRecord) (l : list CacheRecord) :
  k <> cacheKey r ->
  find (has_key k) (filter (fun x => negb (has_key (cacheKey r) x)) l ++ [r])
  = find (has_key k) l.
Proof.
  intros Hk; induction l as [|x l IH]; simpl.
  - unfold has_key; destruct (str_eqb (cacheKey r) k) eqn:E; [|reflexivity].
    apply str_eqb_eq in E; congruence.
  - destruct (has_key (cacheKey r) x) eqn:E1; simpl.
    + destruct (has_key k x) eqn:E2; [|exact IH].
      unfold has_key in *; apply str_eqb_eq in E1, E2; congruence.
    + destruct (has_key k x); [reflexivity|exact IH].
Qed.

Lemma find_after_delete_other (k k' : jsstring) (l : list CacheRecord) :
  k' <> k ->
  find (has_key k') (filter (fun x => negb (has_key k x)) l) = find (has_key k') l.
Proof.
  intros Hk; induction l as [|x l IH]; simpl; [reflexivity|].
  destruct (has_key k x) eqn:E1; simpl.
  - destruct (has_key k' x) eqn:E2; [|exact IH].
    unfold has_key in *; apply str_eqb_eq in E1, E2; congruence.
  - destruct (has_key k' x); [reflexivity|exact IH].
Qed.

Lemma ls_find_update_other (k k' : jsstring) (v : Text) (l : list (jsstring * Text)) :
  k' <> k -> ls_find k' (ls_update k v l) = ls_find k' l.
Proof.
  intros Hk; induction l as [|[k0 v0] l IH]; simpl.
  - destruct (str_eqb k k') eqn:E; [apply str_eqb_eq in E; congruence|reflexivity].
  - destruct (str_eqb k0 k) eqn:E1; simpl.
    + apply str_eqb_eq in E1; subst k0.
      destruct (str_eqb k k') eqn:E; [apply str_eqb_eq in E; congruence|reflexivity].
    + destruct (str_eqb k0 k'); [reflexivity|exact IH].
Qed.

Lemma ls_find_remove_other (k k' : jsstring) (l : list (jsstring * Text)) :
  k' <> k -> ls_find k' (ls_remove k l) = ls_find k' l.
Proof.
  intros Hk; unfold ls_remove; induction l as [|[k0 v0] l IH]; simpl; [reflexivity|].
  destruct (str_eqb k0 k) eqn:E1; simpl.
  - apply str_eqb_eq in E1; subst k0.
    destruct (str_eqb k k') eqn:E; [apply str_eqb_eq in E; congruence|exact IH].
  - destruct (str_eqb k0 k'); [reflexivity|exact IH].
Qed.

Lemma prefixed_neq (k k' : jsstring) :
  k' <> k -> CONVERSATION_CACHE_PREFIX ++ k' <> CONVERSATION_CACHE_PREFIX ++ k.
Proof. intros H E; apply app_inv_head in E; contradiction. Qed.

(** On a platform without faults, a lookup after a store returns the
    payload whenever its identifier and date give the key of the store,
    however they are written; and a store under one key does not change
    what a lookup under another key returns.  The reading [now2] of the
    clock and the time [now1 + DAY] are time values. *)
Theorem store_then_lookup_by_key (a d p a' d' : JsVal) (now1 now2 now : Z) (w : World) :
  fault_free w ->
  truthy a = true -> truthy d = true -> truthy p = true ->
  (text_length (JSON_stringify (buildCacheData a d p now1 now2))
   <= MAX_LOCALSTORAGE_ENTRY_SIZE)%Z ->
  round_trips (buildCacheData a d p now1 now2) ->
  is_time_value now2 = true ->
  is_time_value (now1 + DAY) = true ->
  (now <= now1 + DAY)%Z ->
  (getConversationCacheKey a' d' = getConversationCacheKey a d ->
     fst (getCachedConversations a' d' now (snd (cacheConversations a d p now1 now2 w)))
     = Resolved (Some p))
  /\ (getConversationCacheKey a' d' <> getConversationCacheKey a d ->
      fst (getCachedConversations a' d' now (snd (cacheConversations a d p now1 now2 w)))
      = fst (getCachedConversations a' d' now w)).
Proof.
  intros Hff Ha Hd Hp Hsize [Hne Hrt] Hclock Hexp Hnow.
  destruct (store_fault_free a d p now1 now2 w Hff Ha Hd Hp Hsize Hne Hexp)
    as (S1 & S2 & S3).
  destruct (store_state_fault_free a d p now1 now2 w Hff Ha Hd Hp Hsize Hexp)
    as (_ & Sa & Si & Sl).
  split.
  - intros Hk.
    destruct (lookup_of_held_record a' d' now _ _ S2 S3 (eq_sym Hk) Hne Hrt) as [Hit _].
    apply Hit; now apply hit_of_buildCacheData.
  - intros Hk.
    rewrite (lookup_fault_free a' d' now _ S2), (lookup_fault_free a' d' now w Hff), Sa.
    destruct (INDEXEDDB_AVAILABLE w) eqn:A.
    + rewrite (Si eq_refl).
      now rewrite (find_after_put_other _ (buildCacheData a d p now1 now2)).
    + rewrite (Sl eq_refl); unfold flat_record.
      now rewrite ls_find_update_other by (apply not_eq_sym, prefixed_neq, not_eq_sym, Hk).
Qed.

End TierFacts.

Lemma store_then_lookup_by_key_witness :
  fst (getCachedConversations (JNum 42) march5_noon 2000
         (snd (cacheConversations admin42 march5 (payload_of 2) 1000 1000 (fresh_world false))))
  = Resolved (Some (payload_of 2)).
Proof.
  refine (proj1 (@store_then_lookup_by_key sample_platform admin42 march5 (payload_of 2)
                   (JNum 42) march5_noon 1000 1000 2000 (fresh_world false)
                   _ eq_refl eq_refl eq_refl _ _ eq_refl eq_refl _) eq_refl).
  - repeat split.
  - vm_compute; discriminate.
  - split; reflexivity.
  - vm_compute; discriminate.
Defined.

(** ** What a lookup and a deletion do to the tiers *)

(** The calls that add to a tier or start a clean-up. *)
Definition is_write_or_sweep {PF : Platform} (e : Event) : bool :=
  match e with
  | IdbPut _ | LsSetItem _ _ | IdbOpenCursor | LsKeys => true
  | _ => false
  end.

Section LookupFacts.
Context {PF : Platform}.

Opaque CONVERSATION_CACHE_PREFIX LEGACY_CACHE_PREFIX.

(** A lookup never writes to a tier and never starts a clean-up, in any
    world: besides opening the database, the only calls it makes are reads
    and the removal of the record it was asked for. *)
Theorem lookup_never_writes (adminId date : JsVal) (now : Z) (w : World) :
  forallb (fun e => negb (is_write_or_sweep e))
          (events_since w (snd (getCachedConversations adminId date now w))) = true
  /\ forall k, In (IdbDelete k) (events_since w (snd (getCachedConversations adminId date now w)))
               \/ In (LsRemoveItem (CONVERSATION_CACHE_PREFIX ++ k))
                     (events_since w (snd (getCachedConversations adminId date now w))) ->
               k = getConversationCacheKey adminId date.
Proof.
  set (key := getConversationCacheKey adminId date).
  set (only := fun e : Event =>
                 negb (is_write_or_sweep e)
                 && match e with
                    | IdbDelete k => str_eqb k key
                    | LsRemoveItem k => str_eqb k (CONVERSATION_CACHE_PREFIX ++ key)
                    | _ => true
                    end).
  assert (Hdb : spec (fun _ => True) only getConversationCacheDB any)
    by (apply db_any; reflexivity).
  assert (Hrm : spec (fun _ => True) only
                     (ls_removeItem (CONVERSATION_CACHE_PREFIX ++ key)) any).
  { apply spec_ls_removeItem; [apply lasting_True|].
    unfold only; simpl; apply str_eqb_refl. }
  assert (Hdel : spec (fun _ => True) only (deleteCachedConversation key) any).
  { unfold deleteCachedConversation.
    apply spec_bind with (R := any); auto using lasting_True; intros [|] _.
    - apply spec_bind with (R := any); auto using lasting_True.
      apply spec_idb_delete; [apply lasting_True|].
      unfold only; simpl; apply str_eqb_refl.
    - apply spec_bind with (R := any); auto using lasting_True.
      now apply spec_ret. }
  assert (Hret : forall v : Settled (option JsVal), spec (fun _ => True) only (ret v) any)
    by (intros v; now apply spec_ret).
  assert (S : spec (fun _ => True) only (getCachedConversations adminId date now) any).
  { unfold getCachedConversations; cbv zeta; fold key.
    apply spec_bind with (R := any); auto using lasting_True; intros [|] _.
    - unfold getCachedFromIndexedDB.
      apply spec_bind with (R := any); auto using lasting_True;
        [apply spec_idb_get; [apply lasting_True|reflexivity]|].
      intros [[r|]|] _; auto.
      destruct (expired r now).
      + destruct (is_time_value (expiresAt r)); auto;
          apply spec_bind with (R := any); auto using lasting_True.
      + destruct (negb (truthy (data r)));
          [|destruct (is_time_value (timestamp r)); auto];
          apply spec_bind with (R := any); auto using lasting_True.
    - unfold getCachedFromLocalStorage; cbv zeta.
      apply spec_bind with (R := any); auto using lasting_True;
        [apply spec_ls_getItem; [apply lasting_True|reflexivity]|].
      intros [text|] _; auto.
      destruct (text_falsy text); auto.
      destruct (JSON_parse text) as [| |r]; auto.
      destruct (expired r now).
      + destruct (is_time_value (expiresAt r)); auto;
          apply spec_bind with (R := any); auto using lasting_True.
      + destruct (negb (truthy (data r)));
          [|destruct (is_time_value (timestamp r)); auto];
          apply spec_bind with (R := any); auto using lasting_True. }
  destruct (S w I) as (_ & E & _).
  apply events_since_extends in E.
  rewrite forallb_forall in E.
  split.
  - apply forallb_forall; intros e He.
    specialize (E e He); unfold only in E.
    now apply andb_true_iff in E as [E _].
  - intros k [Hk|Hk]; specialize (E _ Hk); unfold only in E;
      apply andb_true_iff in E as [_ E]; apply str_eqb_eq in E; auto.
    now apply app_inv_head in E.
Qed.

(** A value in localStorage that does not parse, or parses to [null], or is
    the empty string, is a miss, and it is left where it is: only a record
    that parses is ever purged. *)
Theorem unreadable_flat_entry_is_kept (adminId date : JsVal) (now : Z) (w : World)
        (text : Text) :
  obtains_handle w = false ->
  ls_find (CONVERSATION_CACHE_PREFIX ++ getConversationCacheKey adminId date)
          (localStorage w) = Some text ->
  text_falsy text = true \/ JSON_parse text = ParseError \/ JSON_parse text = ParsedNull ->
  fst (getCachedConversations adminId date now w) = Resolved None
  /\ localStorage (snd (getCachedConversations adminId date now w)) = localStorage w
  /\ idb (snd (getCachedConversations adminId date now w)) = idb w.
Proof.
  intros Hdb Hf Hbad.
  destruct (getConversationCacheDB_frame w) as (Fi & Fl & _).
  rewrite getCachedConversations_run, Hdb.
  unfold getCachedFromLocalStorage, ls_getItem, emit, bind, ret; simpl.
  rewrite Fl, Hf.
  destruct (text_falsy text); [simpl; auto|].
  destruct Hbad as [H|[->| ->]]; [discriminate| |]; simpl; auto.
Qed.

(** A record whose [expiresAt] is 0 never expires.  When it has a payload
    and its [timestamp] is a time value, a lookup through the database
    returns the payload at every time.  When its [timestamp] is no time
    value, the log line of the hit throws and the lookup never resolves.
    The record stays in the store either way. *)
Theorem record_without_expiry_never_expires (adminId date : JsVal) (now : Z) (w : World)
        (r : CacheRecord) :
  obtains_handle w = true ->
  hd IdbFine (idb_script w) = IdbFine ->
  find (has_key (getConversationCacheKey adminId date)) (idb w) = Some r ->
  expiresAt r = 0%Z -> truthy (data r) = true ->
  (is_time_value (timestamp r) = true ->
   fst (getCachedConversations adminId date now w) = Resolved (Some (data r)))
  /\ (is_time_value (timestamp r) = false ->
      fst (getCachedConversations adminId date now w) = Pending)
  /\ idb (snd (getCachedConversations adminId date now w)) = idb w.
Proof.
  intros Hdb Hf Hr He Ht.
  destruct (getConversationCacheDB_frame w) as (Fi & _ & Fs & _ & _ & Fh).
  rewrite getCachedConversations_run, Hdb.
  rewrite <- Fs in Hf; rewrite <- Fi in Hr.
  destruct (idb_lookup_found _ now _ _ (Fh Hdb) Hf Hr) as (Hit & _ & Hang).
  assert (Hx : expired r now = false) by (unfold expired; now rewrite He).
  destruct (is_time_value (timestamp r)) eqn:Hv.
  - destruct Hit as (H1 & H2 & _); [repeat split; auto|].
    rewrite H1, H2; repeat split; auto; discriminate.
  - destruct Hang as (H1 & H2 & _); [right; auto|].
    rewrite H1, H2; repeat split; auto; discriminate.
Qed.

(** After a deletion on a platform without faults a lookup under the key
    misses, and lookups under other keys return what they returned
    before. *)
Theorem delete_then_lookup (adminId date a' d' : JsVal) (now : Z) (w : World) :
  fault_free w ->
  fst (getCachedConversations adminId date now
         (snd (deleteCachedConversation (getConversationCacheKey adminId date) w)))
  = Resolved None
  /\ (getConversationCacheKey a' d' <> getConversationCacheKey adminId date ->
      fst (getCachedConversations a' d' now
             (snd (deleteCachedConversation (getConversationCacheKey adminId date) w)))
      = fst (getCachedConversations a' d' now w)).
Proof.
  intros Hff.
  set (k := getConversationCacheKey adminId date).
  destruct (fault_free_db w Hff) as [Hdb (Ho & Hi & Hl)].
  destruct (getConversationCacheDB_frame w) as (Fi & Fl & Fs & Fls & Fa & Fh).
  set (w' := snd (deleteCachedConversation k w)).
  assert (St : fault_free w'
               /\ INDEXEDDB_AVAILABLE w' = INDEXEDDB_AVAILABLE w
               /\ idb w' = (if INDEXEDDB_AVAILABLE w
                            then filter (fun x => negb (has_key k x)) (idb w) else idb w)
               /\ localStorage w' = ls_remove (CONVERSATION_CACHE_PREFIX ++ k) (localStorage w)).
  { unfold w', deleteCachedConversation; rewrite !bind_run.
    fold (obtains_handle w); rewrite Hdb.
    unfold fault_free.
    destruct (INDEXEDDB_AVAILABLE w) eqn:A;
      unfold idb_delete, ls_removeItem, emit, bind, ret; simpl;
      rewrite Fi, Fl, Fa; repeat split; auto. }
  destruct St as (Sff & Sa & Si & Sl).
  split.
  - rewrite (lookup_fault_free adminId date now w' Sff), Sa, Si, Sl; fold k.
    destruct (INDEXEDDB_AVAILABLE w).
    + now rewrite find_removed.
    + unfold flat_record; now rewrite ls_find_remove.
  - intros Hk.
    rewrite (lookup_fault_free a' d' now w' Sff), (lookup_fault_free a' d' now w Hff).
    rewrite Sa, Si, Sl.
    destruct (INDEXEDDB_AVAILABLE w).
    + now rewrite find_after_delete_other.
    + unfold flat_record; now rewrite ls_find_remove_other by now apply prefixed_neq.
Qed.

(** A write to localStorage that fails for a reason other than the quota is
    given up at once: one [setItem], no clean-up, and localStorage as it
    was. *)
Theorem other_write_error_is_final (cacheKey : jsstring) (cacheData : CacheRecord)
        (w : World) (rest : list LsFault) :
  (text_length (JSON_stringify cacheData) <= MAX_LOCALSTORAGE_ENTRY_SIZE)%Z ->
  ls_script w = LsOtherError :: rest ->
  fst (cacheToLocalStorage cacheKey cacheData w) = false
  /\ events_since w (snd (cacheToLocalStorage cacheKey cacheData w))
     = [LsSetItem (CONVERSATION_CACHE_PREFIX ++ cacheKey) (JSON_stringify cacheData)]
  /\ localStorage (snd (cacheToLocalStorage cacheKey cacheData w)) = localStorage w
  /\ idb (snd (cacheToLocalStorage cacheKey cacheData w)) = idb w.
Proof.
  intros Hsize Hs.
  unfold cacheToLocalStorage; cbv zeta.
  apply Z.ltb_ge in Hsize; rewrite Hsize.
  unfold ls_setItem, next_ls_fault, emit, bind, ret; simpl; rewrite Hs; simpl.
  repeat split; auto.
  now apply events_since_app.
Qed.

End LookupFacts.

(** ** What every session keeps *)

Section Invariants.
Context {PF : Platform}.

(** [m] keeps [I]. *)
Definition keeps (I : World -> Prop) {A : Type} (m : M A) : Prop :=
  forall w, I w -> I (snd (m w)).

Section Kept.
Variable I : World -> Prop.
Hypothesis I_trace : forall w t, I w -> I (set_trace t w).
Hypothesis I_open : forall w b l, I w -> open_script w = b :: l -> I (set_open_script l w).
Hypothesis I_idb_script :
  forall w f l, I w -> idb_script w = f :: l -> I (set_idb_script l w).
Hypothesis I_ls_script :
  forall w f l, I w -> ls_script w = f :: l -> I (set_ls_script l w).
Hypothesis I_handle : forall w, I w -> I (set_dbInstance true w).
Hypothesis I_put :
  forall w r, I w ->
    I (set_idb (filter (fun x => negb (has_key (cacheKey r) x)) (idb w) ++ [r]) w).
Hypothesis I_abort : forall w before, I w -> I (set_idb before w).
Hypothesis I_delete :
  forall w k, I w -> I (set_idb (filter (fun x => negb (has_key k x)) (idb w)) w).
Hypothesis I_setItem :
  forall w k v, I w -> I (set_localStorage (ls_update k v (localStorage w)) w).
Hypothesis I_removeItem :
  forall w k, I w -> I (set_localStorage (ls_remove k (localStorage w)) w).

Lemma keeps_bind_I {A B : Type} (m : M A) (k : A -> M B) :
  keeps I m -> (forall a, keeps I (k a)) -> keeps I (bind m k).
Proof. intros Hm Hk w Hw; rewrite bind_run; apply Hk, Hm, Hw. Qed.

Lemma keeps_ret_I {A : Type} (a : A) : keeps I (ret a).
Proof. intros w Hw; exact Hw. Qed.

Lemma keeps_emit (e : Event) : keeps I (emit e).
Proof. intros w Hw; now apply I_trace. Qed.

Lemma keeps_forEach_I {A : Type} (l : list A) (f : A -> M unit) :
  (forall x, keeps I (f x)) -> keeps I (forEach l f).
Proof.
  intros H; induction l as [|x l IH]; simpl; [apply keeps_ret_I|].
  apply keeps_bind_I; auto.
Qed.

Lemma keeps_next_idb_fault : keeps I next_idb_fault.
Proof.
  intros w Hw; unfold next_idb_fault.
  destruct (idb_script w) as [|f l] eqn:E; simpl; [exact Hw|eapply I_idb_script; eauto].
Qed.

Lemma keeps_next_ls_fault : keeps I next_ls_fault.
Proof.
  intros w Hw; unfold next_ls_fault.
  destruct (ls_script w) as [|f l] eqn:E; simpl; [exact Hw|eapply I_ls_script; eauto].
Qed.

Lemma keeps_db : keeps I getConversationCacheDB.
Proof.
  intros w Hw; rewrite getConversationCacheDB_cases.
  destruct (INDEXEDDB_AVAILABLE w); simpl; [|exact Hw].
  destruct (dbInstance w); simpl; [exact Hw|].
  assert (H1 := I_trace w (trace w ++ [IdbOpen]) Hw).
  destruct (open_script w) as [|[|] rest] eqn:E; simpl.
  - now apply I_handle.
  - apply I_handle; eapply I_open; [exact H1|exact E].
  - eapply I_open; [exact H1|exact E].
Qed.

Lemma keeps_idb_get (k : jsstring) : keeps I (idb_get k).
Proof.
  unfold idb_get; apply keeps_bind_I; [apply keeps_emit|intros _].
  apply keeps_bind_I; [apply keeps_next_idb_fault|intros [|]];
    [intros w Hw; exact Hw|apply keeps_ret_I].
Qed.

Lemma keeps_idb_put (r : CacheRecord) : keeps I (idb_put r).
Proof.
  unfold idb_put; apply keeps_bind_I; [apply keeps_emit|intros _].
  apply keeps_bind_I; [apply keeps_next_idb_fault|intros [|]];
    [intros w Hw; now apply I_put|apply keeps_ret_I].
Qed.

Lemma keeps_idb_delete_I (k : jsstring) : keeps I (idb_delete k).
Proof.
  unfold idb_delete; apply keeps_bind_I; [apply keeps_emit|intros _].
  intros w Hw; now apply I_delete.
Qed.

Lemma keeps_idb_cursor : keeps I idb_cursor_prev.
Proof.
  unfold idb_cursor_prev; apply keeps_bind_I; [apply keeps_emit|intros _].
  apply keeps_bind_I; [apply keeps_next_idb_fault|intros [|]];
    [intros w Hw; exact Hw|apply keeps_ret_I].
Qed.

Lemma keeps_ls_getItem_I (k : jsstring) : keeps I (ls_getItem k).
Proof.
  unfold ls_getItem; apply keeps_bind_I; [apply keeps_emit|intros _].
  intros w Hw; exact Hw.
Qed.

Lemma keeps_ls_setItem (k : jsstring) (v : Text) : keeps I (ls_setItem k v).
Proof.
  unfold ls_setItem; apply keeps_bind_I; [apply keeps_emit|intros _].
  apply keeps_bind_I; [apply keeps_next_ls_fault|intros [| |]];
    [intros w Hw; now apply I_setItem|apply keeps_ret_I|apply keeps_ret_I].
Qed.

Lemma keeps_ls_removeItem_I (k : jsstring) : keeps I (ls_removeItem k).
Proof.
  unfold ls_removeItem; apply keeps_bind_I; [apply keeps_emit|intros _].
  intros w Hw; now apply I_removeItem.
Qed.

Lemma keeps_ls_keys : keeps I ls_keys.
Proof.
  unfold ls_keys; apply keeps_bind_I; [apply keeps_emit|intros _].
  intros w Hw; exact Hw.
Qed.

Lemma keeps_readEntries_I (l : list jsstring) : keeps I (readEntries l).
Proof.
  induction l as [|k l IH]; simpl; [apply keeps_ret_I|].
  apply keeps_bind_I; [apply keeps_ls_getItem_I|intros i].
  apply keeps_bind_I; [exact IH|intros; apply keeps_ret_I].
Qed.

Lemma keeps_delete (k : jsstring) : keeps I (deleteCachedConversation k).
Proof.
  unfold deleteCachedConversation.
  apply keeps_bind_I; [apply keeps_db|intros [|]];
    (apply keeps_bind_I; [|intros _; apply keeps_ls_removeItem_I]).
  - apply keeps_idb_delete_I.
  - apply keeps_ret_I.
Qed.

Lemma keeps_lookup (a d : JsVal) (now : Z) : keeps I (getCachedConversations a d now).
Proof.
  unfold getCachedConversations; cbv zeta.
  apply keeps_bind_I; [apply keeps_db|intros [|]].
  - unfold getCachedFromIndexedDB.
    apply keeps_bind_I; [apply keeps_idb_get|intros [[r|]|]]; try apply keeps_ret_I.
    destruct (expired r now).
    + destruct (is_time_value (expiresAt r)); [|apply keeps_ret_I].
      apply keeps_bind_I; [apply keeps_delete|intros; apply keeps_ret_I].
    + destruct (negb (truthy (data r)));
        [|destruct (is_time_value (timestamp r)); apply keeps_ret_I].
      apply keeps_bind_I; [apply keeps_delete|intros; apply keeps_ret_I].
  - unfold getCachedFromLocalStorage; cbv zeta.
    apply keeps_bind_I; [apply keeps_ls_getItem_I|intros [text|]]; try apply keeps_ret_I.
    destruct (text_falsy text); [apply keeps_ret_I|].
    destruct (JSON_parse text) as [| |r]; try apply keeps_ret_I.
    destruct (expired r now).
    + destruct (is_time_value (expiresAt r)); [|apply keeps_ret_I].
      apply keeps_bind_I; [apply keeps_ls_removeItem_I|intros; apply keeps_ret_I].
    + destruct (negb (truthy (data r)));
        [|destruct (is_time_value (timestamp r)); apply keeps_ret_I].
      apply keeps_bind_I; [apply keeps_ls_removeItem_I|intros; apply keeps_ret_I].
Qed.

Lemma keeps_sweep : keeps I clearOldCacheEntries.
Proof.
  unfold clearOldCacheEntries.
  apply keeps_bind_I; [apply keeps_db|intros [|]].
  - unfold clearOldIndexedDBEntries.
    apply keeps_bind_I; [apply keeps_idb_cursor|intros [entries|]]; [|apply keeps_ret_I].
    unfold removeOldIndexedDBEntries.
    destruct (Nat.eqb _ 0); [apply keeps_ret_I|].
    apply keeps_bind_I; [|intros _];
      match goal with |- keeps I (if ?c then _ else _) => destruct c end;
      try apply keeps_ret_I; apply keeps_forEach_I; intros; apply keeps_idb_delete_I.
  - unfold clearOldLocalStorageEntries.
    apply keeps_bind_I; [apply keeps_ls_keys|intros keys].
    unfold removeOldLocalStorageEntries.
    destruct (Nat.eqb _ 0); [apply keeps_ret_I|].
    apply keeps_bind_I; [apply keeps_readEntries_I|intros entries; cbv zeta].
    destruct (Nat.ltb _ _); [|apply keeps_ret_I].
    apply keeps_forEach_I; intros; apply keeps_ls_removeItem_I.
Qed.

Lemma keeps_cacheToLocalStorage (k : jsstring) (r : CacheRecord) :
  keeps I (cacheToLocalStorage k r).
Proof.
  unfold cacheToLocalStorage; cbv zeta.
  destruct (Z.ltb _ _); [apply keeps_ret_I|].
  apply keeps_bind_I; [apply keeps_ls_setItem|intros [| |]].
  - apply keeps_bind_I; [apply keeps_ls_getItem_I|intros; apply keeps_ret_I].
  - apply keeps_bind_I; [apply keeps_sweep|intros _].
    apply keeps_bind_I; [apply keeps_ls_setItem|intros [| |]]; try apply keeps_ret_I.
    apply keeps_bind_I; [apply keeps_ls_getItem_I|intros; apply keeps_ret_I].
  - apply keeps_ret_I.
Qed.

Lemma keeps_store (a d p : JsVal) (now1 now2 : Z) :
  keeps I (cacheConversations a d p now1 now2).
Proof.
  unfold cacheConversations; cbv zeta.
  destruct (orb _ _); [apply keeps_ret_I|].
  apply keeps_bind_I; [apply keeps_db|intros [|]].
  - apply keeps_bind_I; [intros w Hw; exact Hw|intros before].
    apply keeps_bind_I; [apply keeps_idb_put|intros [u|]].
    + destruct (is_time_value _); [apply keeps_ret_I|].
      apply keeps_bind_I; [intros w Hw; now apply I_abort|intros; apply keeps_ret_I].
    + apply keeps_bind_I; [apply keeps_cacheToLocalStorage|intros; apply keeps_ret_I].
  - apply keeps_bind_I; [apply keeps_cacheToLocalStorage|intros; apply keeps_ret_I].
Qed.

Lemma keeps_session (ops : list Op) (w : World) : I w -> I (run_session ops w).
Proof.
  revert w; induction ops as [|op ops IH]; intros w Hw; simpl; [exact Hw|].
  apply IH; destruct op; simpl.
  - now apply keeps_lookup.
  - now apply keeps_store.
  - now apply keeps_delete.
  - now apply keeps_sweep.
Qed.

End Kept.

(** No call brings a fault into a world that has none left. *)
Lemma session_keeps_fault_free (ops : list Op) (w : World) :
  fault_free w -> fault_free (run_session ops w).
Proof.
  apply keeps_session; unfold fault_free; simpl; auto;
    intros w0 ? ? (H1 & H2 & H3) E; congruence.
Qed.

(** The last write wins.  On a platform without faults, after any session,
    which may have stored other payloads under the same key, a store
    followed by a lookup returns the payload just stored.  The reading
    [now2] of the clock and the time [now1 + DAY] are time values. *)
Theorem last_write_wins (ops : list Op) (a d p : JsVal) (now1 now2 now : Z) (w : World) :
  fault_free w ->
  truthy a = true -> truthy d = true -> truthy p = true ->
  (text_length (JSON_stringify (buildCacheData a d p now1 now2))
   <= MAX_LOCALSTORAGE_ENTRY_SIZE)%Z ->
  round_trips (buildCacheData a d p now1 now2) ->
  is_time_value now2 = true ->
  is_time_value (now1 + DAY) = true ->
  (now <= now1 + DAY)%Z ->
  fst (getCachedConversations a d now
         (run_session (ops ++ [OpStore a d p now1 now2]) w)) = Resolved (Some p).
Proof.
  intros Hff Ha Hd Hp Hsize [Hne Hrt] Hclock Hexp Hnow.
  unfold run_session; rewrite fold_left_app; simpl.
  fold (run_session ops w).
  assert (Hff' := session_keeps_fault_free ops w Hff).
  destruct (store_fault_free a d p now1 now2 _ Hff' Ha Hd Hp Hsize Hne Hexp)
    as (S1 & S2 & S3).
  destruct (lookup_of_held_record a d now _ _ S2 S3 eq_refl Hne Hrt) as [Hit _].
  apply Hit; now apply hit_of_buildCacheData.
Qed.

End Invariants.

(** *** The same at sample inputs *)

(** No IndexedDB; localStorage holds under the key of admin 42 a text that
    does not parse. *)
Definition world_flat_unreadable : @World sample_platform :=
  world_with_ls [(CONVERSATION_CACHE_PREFIX ++ key42,
                  mkSampleText 4 ParseError : @Text sample_platform)].

Lemma unreadable_flat_entry_is_kept_witness :
  fst (getCachedConversations admin42 march5 2000 world_flat_unreadable) = Resolved None
  /\ localStorage (snd (getCachedConversations admin42 march5 2000 world_flat_unreadable))
     = localStorage world_flat_unreadable
  /\ idb (snd (getCachedConversations admin42 march5 2000 world_flat_unreadable))
     = idb world_flat_unreadable.
Proof.
  apply (@unreadable_flat_entry_is_kept sample_platform admin42 march5 2000
           world_flat_unreadable (mkSampleText 4 ParseError)).
  - reflexivity.
  - reflexivity.
  - right; left; reflexivity.
Defined.

(** A record persisted without an expiry. *)
Definition record_without_expiry : CacheRecord :=
  mkCacheRecord key42 (js "42") (js "2024-03-05") (payload_of 2) 1000 0 (JNum 2).

Lemma record_without_expiry_never_expires_witness :
  fst (getCachedConversations admin42 march5 4102444800000
         (world_with_idb [record_without_expiry])) = Resolved (Some (payload_of 2))
  /\ idb (snd (getCachedConversations admin42 march5 4102444800000
                 (world_with_idb [record_without_expiry])))
     = [record_without_expiry].
Proof.
  destruct (@record_without_expiry_never_expires sample_platform admin42 march5
              4102444800000 (world_with_idb [record_without_expiry])
              record_without_expiry eq_refl eq_refl eq_refl eq_refl eq_refl)
    as (Hit & _ & Kept).
  split; [apply Hit; reflexivity|exact Kept].
Defined.

(** The same record with a time stamp one millisecond beyond the last time
    value: the lookup never resolves. *)
Example record_beyond_the_last_date :
  let r := mkCacheRecord key42 (js "42") (js "2024-03-05") (payload_of 2)
                         8640000000000001 0 (JNum 2) in
  fst (getCachedConversations admin42 march5 2000 (world_with_idb [r])) = Pending
  /\ fst (getCachedConversations admin42 march5 2000
            (world_with_ls [(CONVERSATION_CACHE_PREFIX ++ key42, text_of r)]))
     = Resolved None.
Proof. vm_compute; repeat split. Qed.

Definition key7 : jsstring := js "7_2024-03-05".

Lemma delete_then_lookup_witness :
  fst (getCachedConversations admin42 march5 2000
         (snd (deleteCachedConversation key42
                 (world_with_idb [record_at key42 (payload_of 2) 1000;
                                  record_at key7 (payload_of 3) 1000]))))
  = Resolved None
  /\ fst (getCachedConversations (JNum 7) march5 2000
            (snd (deleteCachedConversation key42
                    (world_with_idb [record_at key42 (payload_of 2) 1000;
                                     record_at key7 (payload_of 3) 1000]))))
     = fst (getCachedConversations (JNum 7) march5 2000
              (world_with_idb [record_at key42 (payload_of 2) 1000;
                               record_at key7 (payload_of 3) 1000])).
Proof.
  destruct (@delete_then_lookup sample_platform admin42 march5 (JNum 7) march5 2000
              (world_with_idb [record_at key42 (payload_of 2) 1000;
                               record_at key7 (payload_of 3) 1000])) as [H1 H2].
  - repeat split.
  - split; [exact H1|].
    apply H2; intros H; vm_compute in H; discriminate.
Defined.

(** No IndexedDB, and the next write to localStorage fails for a reason
    other than the quota. *)
Definition world_write_fails : @World sample_platform :=
  @mkWorld sample_platform false false [] [] [] [] [LsOtherError] [].

Lemma other_write_error_is_final_witness :
  fst (cacheToLocalStorage key42 (record_at key42 (payload_of 2) 1000) world_write_fails)
  = false
  /\ events_since world_write_fails
       (snd (cacheToLocalStorage key42 (record_at key42 (payload_of 2) 1000)
               world_write_fails))
     = [LsSetItem (CONVERSATION_CACHE_PREFIX ++ key42)
                  (JSON_stringify (record_at key42 (payload_of 2) 1000))]
  /\ localStorage (snd (cacheToLocalStorage key42 (record_at key42 (payload_of 2) 1000)
                          world_write_fails))
     = localStorage world_write_fails
  /\ idb (snd (cacheToLocalStorage key42 (record_at key42 (payload_of 2) 1000)
                 world_write_fails))
     = idb world_write_fails.
Proof.
  apply (@other_write_error_is_final sample_platform key42
           (record_at key42 (payload_of 2) 1000) world_write_fails []).
  - vm_compute; discriminate.
  - reflexivity.
Defined.

(** A session that stores twice under one key, with a failed request in
    between. *)
Definition sample_session : list Op :=
  [OpStore admin42 march5 (payload_of 2) 1000 1000;
   OpStore (JNum 42) march5_noon (payload_of 3) 2000 2000;
   OpLookup admin42 march5 3000;
   OpSweep].

Lemma last_write_wins_witness :
  fst (getCachedConversations admin42 march5 5000
         (run_session (sample_session ++ [OpStore admin42 march5 (payload_of 4) 4000 4000])
                      (fresh_world true))) = Resolved (Some (payload_of 4)).
Proof.
  apply (@last_write_wins sample_platform sample_session admin42 march5 (payload_of 4)
           4000 4000 5000 (fresh_world true)).
  - repeat split.
  - reflexivity.
  - reflexivity.
  - reflexivity.
  - vm_compute; discriminate.
  - split; reflexivity.
  - reflexivity.
  - reflexivity.
  - vm_compute; discriminate.
Defined.

(** ** A clean-up of a cache within its limits *)

Section SweepFacts.
Context {PF : Platform}.

Lemma skipn_short {A : Type} (n : nat) (l : list A) : List.length l <= n -> skipn n l = [].
Proof. intros H; now apply skipn_all2. Qed.

(** A clean-up removes nothing from a cache within its limits, whatever
    faults occur: the object store is left as it is when it holds at most 30
    records, or at most 50 whose serialised forms are together at most
    500 MiB long, and localStorage is left as it is when at most five of its
    keys are keys of the cache. *)
Theorem sweep_within_limits_changes_nothing (w : World) :
  List.length (idb w) <= MAX_INDEXEDDB_ENTRIES_WHEN_LARGE
  \/ (List.length (idb w) <= MAX_INDEXEDDB_ENTRIES
      /\ (totalSize (sort_by newer_first (idb w)) <= MAX_INDEXEDDB_SIZE)%Z) ->
  List.length (filter is_cache_key (map fst (localStorage w))) <= MAX_LOCALSTORAGE_ENTRIES ->
  idb (snd (clearOldCacheEntries w)) = idb w
  /\ localStorage (snd (clearOldCacheEntries w)) = localStorage w.
Proof.
  intros Hidb Hls.
  destruct (getConversationCacheDB_frame w) as (Fi & Fl & _).
  unfold clearOldCacheEntries; rewrite bind_run.
  set (w1 := snd (getConversationCacheDB w)) in *.
  destruct (fst (getConversationCacheDB w)).
  - assert (Hlen : List.length (sort_by newer_first (idb w)) = List.length (idb w))
      by apply Permutation_length, sort_by_perm.
    assert (Hrun : forall w2, idb w2 = idb w -> localStorage w2 = localStorage w ->
              idb (snd (removeOldIndexedDBEntries (sort_by newer_first (idb w)) w2)) = idb w
              /\ localStorage (snd (removeOldIndexedDBEntries (sort_by newer_first (idb w)) w2))
                 = localStorage w).
    { intros w2 H1 H2.
      destruct (removeOldIndexedDBEntries_idb (sort_by newer_first (idb w)) w2) as [-> ->].
      split; [|exact H2].
      rewrite (skipn_short MAX_INDEXEDDB_ENTRIES)
        by (rewrite Hlen; unfold MAX_INDEXEDDB_ENTRIES, MAX_INDEXEDDB_ENTRIES_WHEN_LARGE in *;
            lia).
      cbn [map]; rewrite drop_keys_nil, H1.
      destruct Hidb as [H30|[_ Hsize]].
      - rewrite (skipn_short MAX_INDEXEDDB_ENTRIES_WHEN_LARGE) by (rewrite Hlen; exact H30).
        cbn [map]; destruct (Z.ltb _ _); apply drop_keys_nil.
      - apply Z.ltb_ge in Hsize; rewrite Hsize; apply drop_keys_nil. }
    unfold clearOldIndexedDBEntries, idb_cursor_prev, next_idb_fault, emit, bind, ret; simpl.
    destruct (idb_script w1) as [|[|] rest]; simpl; auto;
      rewrite Fi; apply Hrun; simpl; auto.
  - destruct (clearOldLocalStorageEntries_run w1) as [-> ->].
    rewrite Fi, Fl; split; [reflexivity|].
    rewrite skipn_short; [apply drop_keys_nil|].
    unfold sorted_entries.
    rewrite (Permutation_length (sort_by_perm _ _)), length_map; exact Hls.
Qed.

End SweepFacts.

(** The handle is held; three records in the object store and four entries
    of the cache in localStorage. *)
Definition world_small_cache : @World sample_platform :=
  @mkWorld sample_platform true true (records 3 1) (flat_items 4) [] [] [] [].

Lemma sweep_within_limits_changes_nothing_witness :
  idb (snd (clearOldCacheEntries world_small_cache)) = idb world_small_cache
  /\ localStorage (snd (clearOldCacheEntries world_small_cache))
     = localStorage world_small_cache.
Proof.
  apply (@sweep_within_limits_changes_nothing sample_platform world_small_cache).
  - left; vm_compute; repeat constructor.
  - vm_compute; repeat constructor.
Defined.

(** * The pages of the table

    [displayConversations] (lines 1094-1242) shows one page of
    [allConversations]; [goToPage] (lines 1326-1337) and the handlers of the
    two arrow buttons (lines 1539-1558) change [currentPage].  What follows
    is the window these compute; the rendering of the rows is left out. *)

(** [Array.prototype.slice(start, end)] for integer arguments. *)
Definition js_slice {A : Type} (start final : Z) (l : list A) : list A :=
  let len := Z.of_nat (List.length l) in
  let k := if (start <? 0)%Z then Z.max (len + start) 0 else Z.min start len in
  let e := if (final <? 0)%Z then Z.max (len + final) 0 else Z.min final len in
  firstn (Z.to_nat (e - k)) (skipn (Z.to_nat k) l).

Definition itemsPerPage : Z := 20.

(** [Math.ceil(allConversations.length / itemsPerPage)] *)
Definition totalPages {A : Type} (allConversations : list A) : Z :=
  (Z.of_nat (List.length allConversations) + itemsPerPage - 1) / itemsPerPage.

Definition startIndex (currentPage : Z) : Z := (currentPage - 1) * itemsPerPage.

Definition endIndex {A : Type} (allConversations : list A) (currentPage : Z) : Z :=
  Z.min (startIndex currentPage + itemsPerPage) (Z.of_nat (List.length allConversations)).

(** Lines 1113-1117. *)
Definition pageConversations {A : Type} (allConversations : list A) (currentPage : Z)
  : list A :=
  js_slice (startIndex currentPage) (endIndex allConversations currentPage) allConversations.

(** The two globals of the table. *)
Record Table : Type := mkTable {
  allConversations : list JsVal;
  currentPage : Z
}.

(** Lines 1326-1337. *)
Definition goToPage (page : Z) (t : Table) : Table :=
  if (page <? 1)%Z || (totalPages (allConversations t) <? page)%Z then t
  else mkTable (allConversations t) page.

(** Lines 1539-1547 and 1549-1558. *)
Inductive Click : Type :=
| ClickPage (pageNum : Z)
| ClickPrev
| ClickNext.

Definition click (t : Table) (c : Click) : Table :=
  match c with
  | ClickPage pageNum => goToPage pageNum t
  | ClickPrev =>
      if (1 <? currentPage t)%Z then goToPage (currentPage t - 1) t else t
  | ClickNext =>
      if (currentPage t <? totalPages (allConversations t))%Z
      then goToPage (currentPage t + 1) t else t
  end.

Section Pages.
Context {A : Type}.

Lemma firstn_more (a b : nat) (l : list A) :
  firstn (a + b) l = firstn a l ++ firstn b (skipn a l).
Proof.
  revert l; induction a as [|a IH]; intros [|x l]; simpl; auto.
  - now rewrite firstn_nil.
  - now rewrite IH.
Qed.

(** From page 1 on, a page is the next 20 elements after those of the
    pages before it. *)
Lemma pageConversations_window (l : list A) (p : Z) :
  (1 <= p)%Z ->
  pageConversations l p = firstn 20 (skipn (20 * Z.to_nat (p - 1)) l).
Proof.
  intros Hp.
  unfold pageConversations, js_slice, endIndex, startIndex, itemsPerPage.
  set (len := Z.of_nat (List.length l)).
  assert (Hs : ((p - 1) * 20 <? 0)%Z = false) by (apply Z.ltb_ge; lia).
  assert (He : (Z.min ((p - 1) * 20 + 20) len <? 0)%Z = false) by (apply Z.ltb_ge; lia).
  rewrite Hs, He.
  destruct (Z_le_gt_dec ((p - 1) * 20) len) as [Hin|Hout].
  - replace (Z.to_nat (Z.min ((p - 1) * 20) len)) with (20 * Z.to_nat (p - 1)) by lia.
    set (rest := skipn (20 * Z.to_nat (p - 1)) l).
    assert (Hrest : List.length rest = List.length l - 20 * Z.to_nat (p - 1))
      by apply length_skipn.
    destruct (Z_le_gt_dec ((p - 1) * 20 + 20) len) as [Hfull|Hlast].
    + f_equal; lia.
    + rewrite (firstn_all2 (n := 20)) by lia.
      apply firstn_all2; lia.
  - rewrite (skipn_all2 (n := 20 * Z.to_nat (p - 1))) by lia.
    rewrite firstn_nil.
    replace (Z.to_nat (Z.min (Z.min ((p - 1) * 20 + 20) len) len
                       - Z.min ((p - 1) * 20) len)) with 0 by lia.
    reflexivity.
Qed.

Lemma pages_upto (l : list A) (k : nat) :
  List.concat (map (fun p => pageConversations l (Z.of_nat p)) (seq 1 k)) = firstn (20 * k) l.
Proof.
  induction k as [|k IH]; [reflexivity|].
  rewrite seq_S, map_app, concat_app, IH; cbn [map List.concat].
  rewrite app_nil_r, pageConversations_window by lia.
  replace (Z.to_nat (Z.of_nat (1 + k) - 1)) with k by lia.
  replace (20 * S k) with (20 * k + 20) by lia.
  now rewrite firstn_more.
Qed.

Lemma totalPages_bounds (l : list A) :
  (20 * (totalPages l - 1) < Z.of_nat (List.length l) <= 20 * totalPages l)%Z.
Proof.
  unfold totalPages, itemsPerPage.
  set (n := Z.of_nat (List.length l)).
  pose proof (Z.div_mod (n + 20 - 1) 20 ltac:(lia)) as Hd.
  pose proof (Z.mod_pos_bound (n + 20 - 1) 20 ltac:(lia)) as Hm.
  lia.
Qed.

(** The pages 1 to [totalPages], one after the other, are the list: every
    conversation is on exactly one page, in the order of the list. *)
Theorem pages_cover_the_list (l : list A) :
  List.concat (map (fun p => pageConversations l (Z.of_nat p))
              (seq 1 (Z.to_nat (totalPages l)))) = l.
Proof.
  rewrite pages_upto.
  apply firstn_all2.
  pose proof (totalPages_bounds l); lia.
Qed.

(** Each of the pages 1 to [totalPages] holds at least one and at most 20
    conversations, and each page before the last holds 20. *)
Lemma page_length (l : list A) (p : Z) :
  (1 <= p <= totalPages l)%Z ->
  1 <= List.length (pageConversations l p) <= 20
  /\ ((p < totalPages l)%Z -> List.length (pageConversations l p) = 20).
Proof.
  intros Hp; pose proof (totalPages_bounds l) as Hb.
  rewrite pageConversations_window by lia.
  rewrite length_firstn, length_skipn.
  split; [|intros Hlt]; lia.
Qed.

End Pages.

(** Clicks never lead off the table.  After a load has filled the table and
    set the page to 1, whatever is clicked, the page shown is one of the
    pages 1 to [totalPages]; it holds at least one and at most 20
    conversations, and 20 unless it is the last page; the conversations are
    never changed by a click. *)
Theorem clicks_stay_on_the_table (conversations : list JsVal) (clicks : list Click) :
  conversations <> [] ->
  let t := fold_left click clicks (mkTable conversations 1) in
  allConversations t = conversations
  /\ (1 <= currentPage t <= totalPages conversations)%Z
  /\ 1 <= List.length (pageConversations conversations (currentPage t)) <= 20
  /\ ((currentPage t < totalPages conversations)%Z ->
      List.length (pageConversations conversations (currentPage t)) = 20).
Proof.
  intros Hne t.
  assert (H1 : (1 <= totalPages conversations)%Z).
  { pose proof (totalPages_bounds conversations).
    destruct conversations; [congruence|simpl List.length in *; lia]. }
  assert (Hinv : allConversations t = conversations
                 /\ (1 <= currentPage t <= totalPages conversations)%Z).
  { unfold t; clear t.
    assert (Hstart : allConversations (mkTable conversations 1) = conversations
                     /\ (1 <= currentPage (mkTable conversations 1)
                         <= totalPages conversations)%Z) by (simpl; split; [reflexivity|lia]).
    revert Hstart; generalize (mkTable conversations 1).
    induction clicks as [|c clicks IH]; intros t0 Hstart; [exact Hstart|].
    simpl; apply IH; clear IH.
    destruct Hstart as [Ha Hc].
    assert (Hgo : forall page,
               allConversations (goToPage page t0) = conversations
               /\ (1 <= currentPage (goToPage page t0) <= totalPages conversations)%Z).
    { intros page; unfold goToPage; rewrite Ha.
      destruct (Z.ltb_spec page 1); simpl; [auto|].
      destruct (Z.ltb_spec (totalPages conversations) page); simpl; [auto|].
      split; [reflexivity|lia]. }
    destruct c; simpl.
    - apply Hgo.
    - destruct (Z.ltb 1 (currentPage t0)); [apply Hgo|auto].
    - destruct (Z.ltb (currentPage t0) (totalPages (allConversations t0)));
        [apply Hgo|auto]. }
  destruct Hinv as [Ha Hc].
  split; [exact Ha|split; [exact Hc|]].
  now apply page_length.
Qed.

Lemma clicks_stay_on_the_table_witness :
  let conversations := map JNum [1; 2; 3; 4; 5; 6; 7; 8; 9; 10; 11; 12; 13; 14; 15; 16; 17;
                                 18; 19; 20; 21; 22; 23]%Z in
  let t := fold_left click [ClickNext; ClickNext; ClickPage 7; ClickPrev; ClickNext]
                     (mkTable conversations 1) in
  allConversations t = conversations
  /\ (1 <= currentPage t <= totalPages conversations)%Z
  /\ 1 <= List.length (pageConversations conversations (currentPage t)) <= 20
  /\ ((currentPage t < totalPages conversations)%Z ->
      List.length (pageConversations conversations (currentPage t)) = 20).
Proof.
  apply (clicks_stay_on_the_table
           (map JNum [1; 2; 3; 4; 5; 6; 7; 8; 9; 10; 11; 12; 13; 14; 15; 16; 17;
                      18; 19; 20; 21; 22; 23]%Z)
           [ClickNext; ClickNext; ClickPage 7; ClickPrev; ClickNext]).
  discriminate.
Defined.

(** * The date shown above the table *)

(** [s.split(sep)] for a separator of one code unit. *)
Fixpoint js_split (sep : N) (s : jsstring) : list jsstring :=
  match s with
  | [] => [[]]
  | c :: r =>
      if N.eqb c sep then [] :: js_split sep r
      else match js_split sep r with
           | piece :: pieces => (c :: piece) :: pieces
           | [] => [[c]]
           end
  end.

(** An element taken out of an array by destructuring, as a template
    literal prints it: a missing one prints as [undefined]. *)
Definition element (i : nat) (pieces : list jsstring) : jsstring :=
  nth i pieces (js "undefined").

(** Lines 523-528, for a string. *)
Definition formatDateStringForDisplay (dateStr : jsstring) : jsstring :=
  match dateStr with
  | [] => []
  | _ =>
      let pieces := js_split char_dash dateStr in
      let year := element 0 pieces in
      let month := element 1 pieces in
      let day := element 2 pieces in
      day ++ js "/" ++ month ++ js "/" ++ year
  end.

Lemma app_same_length_head (a b x y : jsstring) :
  List.length a = List.length b -> a ++ x = b ++ y -> a = b /\ x = y.
Proof.
  revert b; induction a as [|c a IH]; intros [|d b] Hl E; simpl in *; try discriminate.
  - auto.
  - injection E as -> E; injection Hl as Hl.
    destruct (IH b Hl E) as [-> ->]; auto.
Qed.

Lemma digit_is_no_dash (c : N) : is_digit c = true -> N.eqb c char_dash = false.
Proof.
  unfold is_digit, char_dash; intros H.
  apply andb_true_iff in H as [H _]; apply N.leb_le in H.
  apply N.eqb_neq; lia.
Qed.

(** A date the cache key takes as it is, YYYY-MM-DD, is shown as
    DD/MM/YYYY: the same three fields in the opposite order, so that two
    such dates are shown alike only when they are equal. *)
Theorem display_of_a_date (dateStr : jsstring) :
  is_ymd dateStr = true ->
  formatDateStringForDisplay dateStr
  = skipn 8 dateStr ++ js "/" ++ firstn 2 (skipn 5 dateStr) ++ js "/" ++ firstn 4 dateStr
  /\ forall other, is_ymd other = true ->
       formatDateStringForDisplay other = formatDateStringForDisplay dateStr ->
       other = dateStr.
Proof.
  assert (Hshape : forall s, is_ymd s = true ->
            formatDateStringForDisplay s
            = skipn 8 s ++ js "/" ++ firstn 2 (skipn 5 s) ++ js "/" ++ firstn 4 s
            /\ s = firstn 4 s ++ [char_dash] ++ firstn 2 (skipn 5 s) ++ [char_dash]
                   ++ skipn 8 s
            /\ List.length (skipn 8 s) = 2 /\ List.length (firstn 2 (skipn 5 s)) = 2
            /\ List.length (firstn 4 s) = 4).
  { intros s H; unfold is_ymd in H.
    do 10 (destruct s as [|? s]; try discriminate).
    destruct s; [|discriminate].
    cbn [forallb] in H.
    rewrite !andb_true_iff in H.
    destruct H as [[(H1 & H2 & H3 & H4 & H5 & H6 & H7 & H8 & _) E1] E2].
    apply N.eqb_eq in E1, E2; subst.
    unfold formatDateStringForDisplay; cbn [js_split].
    rewrite !N.eqb_refl.
    rewrite !digit_is_no_dash by assumption.
    repeat split. }
  intros H; destruct (Hshape dateStr H) as (E & S & L1 & L2 & L3).
  split; [exact E|].
  intros other Ho Eq.
  destruct (Hshape other Ho) as (E' & S' & L1' & L2' & L3').
  rewrite E, E' in Eq.
  apply app_same_length_head in Eq; [|now rewrite L1, L1'].
  destruct Eq as [Ed Eq].
  apply app_same_length_head in Eq; [|reflexivity].
  destruct Eq as [_ Eq].
  apply app_same_length_head in Eq; [|now rewrite L2, L2'].
  destruct Eq as [Em Eq].
  apply app_same_length_head in Eq; [|reflexivity].
  destruct Eq as [_ Ey].
  rewrite S', S, Ed, Em, Ey; reflexivity.
Qed.

Lemma display_of_a_date_witness :
  formatDateStringForDisplay (js "2024-03-05") = js "05/03/2024".
Proof.
  exact (proj1 (display_of_a_date (js "2024-03-05") eq_refl)).
Defined.
